(** * aioes.transport: a shallow embedding of [Transport] and its properties

    The development follows [aioes/transport.py]:
    - [Re]: the fragment of Python's [re] module used by [ADDRESS_RE]
      (a backtracking matcher with named groups);
    - Python values as decoded by [json.loads], exceptions, endpoints;
    - [Connection] and [ConnectionPool], the two collaborators;
    - the [Transport] object, a state-and-exception monad for its
      coroutines, and the methods themselves;
    - the properties of the methods. *)

From Stdlib Require Import ZArith Ascii String List.
From Stdlib Require Import Floats.PrimFloat Numbers.Cyclic.Int63.Uint63.
From stdpp Require Import base option list gmap strings.

Local Open Scope string_scope.
Local Open Scope Z_scope.
Local Open Scope list_scope.

(** ** Exceptions *)

Inductive exn :=
| ConnectionError (detail : string)
| TransportError (status : string) (message : string)
| RuntimeError (message : string)
| TypeError
| ValueError
| KeyError (key : string)
| AttributeError (name : string)
| TimeoutError
| PoolError.

#[global] Instance exn_eq_dec : EqDecision exn.
Proof. solve_decision. Defined.

(** The outcome of evaluating a Python expression. *)
Inductive result (A : Type) :=
| Ok (a : A)
| Raise (e : exn).
Arguments Ok {A} a.
Arguments Raise {A} e.

(** ** Regular expressions *)

Module Re.

(** The constructs of [re] that [ADDRESS_RE] is written with.  Repetition
    is only ever applied to a character class, and [?] to a literal. *)
Inductive regex :=
| Lit (c : ascii)                       (* a literal character *)
| Star (cls : ascii -> bool)            (* [...]*, greedy *)
| Plus (cls : ascii -> bool)            (* [...]+, greedy *)
| Opt (c : ascii)                       (* c?, greedy *)
| Dollar                                (* $ (no MULTILINE flag) *)
| Seq (r1 r2 : regex)
| Group (name : string) (r : regex).    (* (?P<name>...) *)

(** Text captured so far, per participating named group. *)
Abbreviation captures := (gmap string string).

(** Greedy repetition of a class: the longest run is tried first, and the
    matcher backs off one character at a time while the rest fails. *)
Fixpoint greedy {R} (cls : ascii -> bool) (s : list ascii)
    (k : list ascii -> option R) : option R :=
  match s with
  | c :: s' =>
      if cls c then
        match greedy cls s' k with
        | Some m => Some m
        | None => k s
        end
      else k s
  | [] => k []
  end.

(** [$] without MULTILINE: the end of the string, or just before a newline
    that is the last character of the string. *)
Definition at_dollar (s : list ascii) : bool :=
  match s with
  | [] => true
  | [c] => bool_decide (c = "010"%char)
  | _ => false
  end.

(** [rmatch r s caps k]: match [r] at the head of [s]; on success hand the
    remaining input and the captures to the continuation [k], whose failure
    makes the matcher backtrack into [r]. *)
Fixpoint rmatch (r : regex) (s : list ascii) (caps : captures)
    (k : list ascii -> captures -> option captures) : option captures :=
  match r with
  | Lit c =>
      match s with
      | c' :: s' => if bool_decide (c' = c) then k s' caps else None
      | [] => None
      end
  | Star cls => greedy cls s (fun s' => k s' caps)
  | Plus cls =>
      match s with
      | c :: s' => if cls c then greedy cls s' (fun s'' => k s'' caps) else None
      | [] => None
      end
  | Opt c =>
      match s with
      | c' :: s' =>
          if bool_decide (c' = c) then
            match k s' caps with
            | Some m => Some m
            | None => k s caps
            end
          else k s caps
      | [] => k [] caps
      end
  | Dollar => if at_dollar s then k s caps else None
  | Seq r1 r2 => rmatch r1 s caps (fun s1 caps1 => rmatch r2 s1 caps1 k)
  | Group name r1 =>
      rmatch r1 s caps (fun s1 caps1 =>
        k s1 (<[name := string_of_list_ascii (take (length s - length s1) s)]> caps1))
  end.

(** [pattern.search]: the match at the leftmost position that has one. *)
Fixpoint search_from (r : regex) (s : list ascii) : option captures :=
  match rmatch r s ∅ (fun _ caps => Some caps) with
  | Some m => Some m
  | None =>
      match s with
      | [] => None
      | _ :: s' => search_from r s'
      end
  end.

(** A match object: the pattern and what its groups captured. *)
Record match_object := { re : regex; groups : captures }.

Definition search (r : regex) (s : string) : option match_object :=
  (fun caps => {| re := r; groups := caps |}) <$> search_from r (list_ascii_of_string s).

(** The named groups of a pattern, in order. *)
Fixpoint group_names (r : regex) : list string :=
  match r with
  | Seq r1 r2 => group_names r1 ++ group_names r2
  | Group name r1 => name :: group_names r1
  | _ => []
  end.

(** [match.groupdict()]: every named group of the pattern, mapped to its
    text, or to [None] when the group did not take part in the match. *)
Definition groupdict (m : match_object) : gmap string (option string) :=
  list_to_map ((fun n => (n, groups m !! n)) <$> group_names (re m)).

End Re.

(** Character classes of [ADDRESS_RE]. *)
Definition in_range (lo hi c : ascii) : bool :=
  (nat_of_ascii lo <=? nat_of_ascii c)%nat && (nat_of_ascii c <=? nat_of_ascii hi)%nat.

(** [[0-9]] *)
Definition digit_class (c : ascii) : bool := in_range "0" "9" c.

(** [[\.:0-9a-f]] *)
Definition host_class (c : ascii) : bool :=
  bool_decide (c = "."%char) || bool_decide (c = ":"%char)
  || in_range "0" "9" c || in_range "a" "f" c.

(** [ADDRESS_RE]: a slash, group [host] (any number of characters of the
    class above, greedy), a colon, group [port] (one or more digits, greedy),
    an optional closing bracket, and [$]. *)
Definition ADDRESS_RE : Re.regex :=
  Re.Seq (Re.Lit "/")
    (Re.Seq (Re.Group "host" (Re.Star host_class))
      (Re.Seq (Re.Lit ":")
        (Re.Seq (Re.Group "port" (Re.Plus digit_class))
          (Re.Seq (Re.Opt "]") Re.Dollar)))).

(** The value of a digit. *)
Definition digit_value (c : ascii) : Z := Z.of_nat (nat_of_ascii c) - 48.

(** [int(s)] on a text made of ASCII digits: its decimal value.  Python's
    [int] raises [ValueError] on a text that is no number; it also accepts a
    sign, surrounding blanks and underscores, which are left out here: the
    only texts this module converts are what group [port] of [ADDRESS_RE]
    captured. *)
Definition int_of_text (s : string) : result Z :=
  let cs := list_ascii_of_string s in
  if bool_decide (cs = []) then Raise ValueError
  else if forallb digit_class cs
       then Ok (fold_left (fun acc c => 10 * acc + digit_value c) cs 0)
       else Raise ValueError.

(** ** Python values *)

#[local] Unset Elimination Schemes.

(** What [json.loads] produces.  A [VDict] lists the items of a dict in
    iteration order; its keys are distinct. *)
Inductive value :=
| VNone
| VBool (b : bool)
| VInt (n : Z)
| VStr (s : string)
| VList (items : list value)
| VDict (items : list (string * value)).

#[local] Set Elimination Schemes.

(** [d.get(key)] on the items of a dict. *)
Fixpoint dict_get (items : list (string * value)) (key : string) : option value :=
  match items with
  | [] => None
  | (k, v) :: items' => if bool_decide (k = key) then Some v else dict_get items' key
  end.

(** [v[key]] for a text key. *)
Definition subscript (v : value) (key : string) : result value :=
  match v with
  | VDict items =>
      match dict_get items key with
      | Some x => Ok x
      | None => Raise (KeyError key)
      end
  | _ => Raise TypeError
  end.

(** [v.values()] *)
Definition values (v : value) : result (list value) :=
  match v with
  | VDict items => Ok (snd <$> items)
  | _ => Raise (AttributeError "values")
  end.

(** [v.get(key, default)] *)
Definition get (v : value) (key : string) (dflt : value) : result value :=
  match v with
  | VDict items => Ok (default dflt (dict_get items key))
  | _ => Raise (AttributeError "get")
  end.

(** [result] is the exception monad. *)
#[global] Instance result_ret : MRet result := fun _ a => Ok a.
#[global] Instance result_bind : MBind result := fun _ _ f m =>
  match m with
  | Ok a => f a
  | Raise e => Raise e
  end.

(** [v == 'text'] *)
Definition eq_text (v : value) (text : string) : bool :=
  match v with
  | VStr s => bool_decide (s = text)
  | _ => false
  end.

(** ** Endpoints *)

(** [Endpoint = collections.namedtuple('TCPEndpoint', 'host port')], with a
    text host and an integer port. *)
Record Endpoint := mkEndpoint { host : string; port : Z }.

#[global] Instance Endpoint_eq_dec : EqDecision Endpoint.
Proof. solve_decision. Defined.

#[global] Instance Endpoint_countable : Countable Endpoint :=
  inj_countable' (fun e => (host e, port e)) (fun p => mkEndpoint p.1 p.2)
    (fun e => match e with mkEndpoint _ _ => eq_refl end).

(** What a caller may put in an endpoint list: an [Endpoint], a dict (of
    which the code reads the keys ['host'] and ['port'], each present or
    not), or an object that is neither.  Of an object that is neither the
    model keeps the text [format] gives for it, which is all that
    [_convert_endpoints] uses, and whether it can be hashed: [IsOther] if it
    can (a text), [IsUnhashable] if not (a list, a set).  As a key of a
    dict, [IsOther r] is equal to the objects of the same text and to no
    other object, as a text is.  An object that Python finds equal to one
    of another text is outside of that reading: the plain tuple
    [('localhost', 9200)], equal to [Endpoint('localhost', 9200)], is not
    among the keys the model has. *)
Inductive endpoint_spec :=
| IsEndpoint (e : Endpoint)
| IsDict (d_host : option string) (d_port : option Z)
| IsOther (repr : string)
| IsUnhashable (repr : string).

#[global] Instance endpoint_spec_eq_dec : EqDecision endpoint_spec.
Proof. solve_decision. Defined.

#[global] Instance endpoint_spec_countable : Countable endpoint_spec :=
  inj_countable'
    (fun s => match s with
              | IsEndpoint e => inl e
              | IsDict h p => inr (inl (h, p))
              | IsOther r => inr (inr (inl r))
              | IsUnhashable r => inr (inr (inr r))
              end)
    (fun x => match x with
              | inl e => IsEndpoint e
              | inr (inl (h, p)) => IsDict h p
              | inr (inr (inl r)) => IsOther r
              | inr (inr (inr r)) => IsUnhashable r
              end)
    (fun s => match s with
              | IsEndpoint _ | IsDict _ _ | IsOther _ | IsUnhashable _ => eq_refl
              end).

(** [isinstance(e, Endpoint)] *)
Definition is_Endpoint (e : endpoint_spec) : bool :=
  match e with
  | IsEndpoint _ => true
  | _ => false
  end.

(** Whether [hash(e)] succeeds: it does on an [Endpoint], whose fields are
    a text and an integer, and on a text; a dict is unhashable, and so is a
    list or a set.  Where it fails, a lookup with [e] as key and a dict
    display with [e] as key raise [TypeError]. *)
Definition hashable (e : endpoint_spec) : bool :=
  match e with
  | IsEndpoint _ | IsOther _ => true
  | IsDict _ _ | IsUnhashable _ => false
  end.

(** [Transport._convert_endpoints] *)
Fixpoint _convert_endpoints_loop (endpoints : list endpoint_spec) (ret : list Endpoint)
    : result (list Endpoint) :=
  match endpoints with
  | [] => Ok ret
  | e :: rest =>
      match e with
      | IsEndpoint ep => _convert_endpoints_loop rest (ret ++ [ep])
      | IsDict d_host d_port =>
          match d_host with
          | None => Raise (KeyError "host")
          | Some h =>
              let p := default 9200 d_port in
              _convert_endpoints_loop rest (ret ++ [mkEndpoint h p])
          end
      | IsOther r | IsUnhashable r => Raise (RuntimeError ("Bad endpoint " +:+ r))
      end
  end.

Definition _convert_endpoints (endpoints : list endpoint_spec) : result (list Endpoint) :=
  _convert_endpoints_loop endpoints [].

(** ** Discovery: from the node-info document to endpoints *)

(** The body of the loop over the nodes in [sniff_endpoints]: [None] when the
    loop moves on without an endpoint ([continue], or the attribute test),
    [Some e] when [e] is appended.
    [dct['host']] is a text for every match of [ADDRESS_RE]; were group
    [host] left out of a match, Python would build an endpoint whose host is
    [None], which [Endpoint] here cannot hold: that case is a [TypeError]
    below, and [host_group_participates] shows that it does not arise. *)
Definition sniff_node (n : value) : result (option Endpoint) :=
  a ← get n "http_address" (VStr "");
  match a with
  | VStr addr =>
      match Re.search ADDRESS_RE addr with
      | None => Ok None
      | Some m =>
          let dct := Re.groupdict m in
          h ← match dct !! "host" with
              | Some (Some h) => Ok h
              | Some None => Raise TypeError
              | None => Raise (KeyError "host")
              end;
          p ← (if bool_decide (is_Some (dct !! "port"))
               then match dct !! "port" with
                    | Some (Some digits) => int_of_text digits
                    | _ => Raise TypeError
                    end
               else Ok 9200);
          attrs ← get n "attributes" (VDict []);
          data ← get attrs "data" (VStr "true");
          dedicated_master ←
            (if eq_text data "false" then
               client ← get attrs "client" (VStr "false");
               if eq_text client "false" then
                 master ← get attrs "master" (VStr "true");
                 Ok (eq_text master "true")
               else Ok false
             else Ok false);
          if negb dedicated_master then Ok (Some (mkEndpoint h p)) else Ok None
      end
  | _ => Raise TypeError
  end.

Fixpoint sniff_nodes (nodes : list value) (endpoints : list Endpoint)
    : result (list Endpoint) :=
  match nodes with
  | [] => Ok endpoints
  | n :: rest =>
      r ← sniff_node n;
      sniff_nodes rest (match r with Some e => endpoints ++ [e] | None => endpoints end)
  end.

(** Lines 141-165 of [sniff_endpoints]: the endpoints of a decoded response,
    or the error raised on the way. *)
Definition viable_endpoints (node_info : value) : result (list Endpoint) :=
  nodes ← subscript node_info "nodes";
  ns ← values nodes;
  endpoints ← sniff_nodes ns [];
  if bool_decide (endpoints = [])
  then Raise (TransportError "N/A" "Unable to sniff endpoints - no viable endpoints found.")
  else Ok endpoints.

(** ** Collaborators *)

(** A [Connection] object: its identity and the endpoint it was built for. *)
Record Connection := mkConnection { conn_id : nat; endpoint : endpoint_spec }.

#[global] Instance Connection_eq_dec : EqDecision Connection.
Proof. solve_decision. Defined.

(** Modelled from the spec: [ConnectionPool] ([aioes/pool.py] is not among
    the sources).  It holds an ordered collection of connections and the
    health marks it keeps for them; it is built from a list of connections
    and offers [connections], [get_connection], [mark_dead], [mark_live],
    [detach] (remove without closing) and [close] (release all). *)
Record ConnectionPool := mkPool { connections : list Connection; dead : list Connection }.

Definition ConnectionPool_new (cs : list Connection) : ConnectionPool :=
  {| connections := cs; dead := [] |}.

(** What a connection hands back as response data, and what [json.loads]
    makes of it.  The JSON text itself is outside this module: a well-formed
    text is represented by the value it decodes to. *)
Inductive payload :=
| NoData                       (* None *)
| EmptyText                    (* the empty text *)
| Malformed (raw : string)     (* a text that is not JSON *)
| Json (v : value).            (* the JSON text of v *)

Definition json_loads (data : payload) : result value :=
  match data with
  | NoData => Raise TypeError
  | EmptyText => Raise ValueError
  | Malformed _ => Raise ValueError
  | Json v => Ok v
  end.

(** The arguments of [Connection.perform_request]. *)
Record request := mkRequest {
  method : string;
  url : string;
  params : option value;
  body : option value;
  timeout : option float
}.

(** What the methods do to their collaborators, in order. *)
Inductive event :=
| EvSniff                                     (* sniff_endpoints is entered *)
| EvRequest (c : Connection) (r : request)    (* c.perform_request(...) *)
| EvSelect                                    (* pool.get_connection() *)
| EvMarkDead (c : Connection)                 (* pool.mark_dead(c) *)
| EvMarkLive (c : Connection)                 (* pool.mark_live(c) *)
| EvDetach (c : Connection)                   (* pool.detach(c) *)
| EvClose (cs : list Connection)              (* pool.close(), releasing cs *)
| EvConnect (c : Connection).                 (* Connection(endpoint) *)

(** The world outside the transport.  Every interaction with it advances
    [tick]; the answers may depend on the tick, so that a clock moves, a node
    answers differently over time, and shuffles differ. *)
Record Env := {
  clock : nat -> float;                                           (* time.monotonic() *)
  transmit : nat -> Connection -> request -> result (Z * payload); (* status and data *)
  select : nat -> ConnectionPool -> result Connection;            (* the pool's choice *)
  shuffle : nat -> list Connection -> list Connection             (* random.shuffle *)
}.

(** ** The transport object *)

(** The attributes of a [Transport].  Times and intervals are doubles, in
    seconds.  [_sniff_on_connection_fail] is [None] while the object has no
    such attribute. *)
Record Transport := mkTransport {
  _endpoints : list endpoint_spec;
  _pool : ConnectionPool;
  _seed_connections : list Connection;
  _sniffer_timeout : option float;
  _sniff_timeout : option float;
  _last_sniff : float;
  _max_retries : Z;
  _sniff_on_connection_fail : option bool
}.

Record State := mkState {
  self : Transport;
  tick : nat;                    (* interactions with the world so far *)
  next_id : nat;                 (* identity of the next object built *)
  closed : list Connection;      (* connections released so far *)
  log : list event
}.

Definition with_self (f : Transport -> Transport) (st : State) : State :=
  mkState (f (self st)) (tick st) (next_id st) (closed st) (log st).

Definition set_endpoints_attr (v : list endpoint_spec) (t : Transport) : Transport :=
  mkTransport v (_pool t) (_seed_connections t) (_sniffer_timeout t) (_sniff_timeout t)
    (_last_sniff t) (_max_retries t) (_sniff_on_connection_fail t).

Definition set_pool (v : ConnectionPool) (t : Transport) : Transport :=
  mkTransport (_endpoints t) v (_seed_connections t) (_sniffer_timeout t) (_sniff_timeout t)
    (_last_sniff t) (_max_retries t) (_sniff_on_connection_fail t).

Definition set_seed_connections (v : list Connection) (t : Transport) : Transport :=
  mkTransport (_endpoints t) (_pool t) v (_sniffer_timeout t) (_sniff_timeout t)
    (_last_sniff t) (_max_retries t) (_sniff_on_connection_fail t).

Definition set_sniffer_timeout (v : option float) (t : Transport) : Transport :=
  mkTransport (_endpoints t) (_pool t) (_seed_connections t) v (_sniff_timeout t)
    (_last_sniff t) (_max_retries t) (_sniff_on_connection_fail t).

Definition set_sniff_timeout (v : option float) (t : Transport) : Transport :=
  mkTransport (_endpoints t) (_pool t) (_seed_connections t) (_sniffer_timeout t) v
    (_last_sniff t) (_max_retries t) (_sniff_on_connection_fail t).

Definition set_last_sniff (v : float) (t : Transport) : Transport :=
  mkTransport (_endpoints t) (_pool t) (_seed_connections t) (_sniffer_timeout t)
    (_sniff_timeout t) v (_max_retries t) (_sniff_on_connection_fail t).

Definition set_max_retries (v : Z) (t : Transport) : Transport :=
  mkTransport (_endpoints t) (_pool t) (_seed_connections t) (_sniffer_timeout t)
    (_sniff_timeout t) (_last_sniff t) v (_sniff_on_connection_fail t).

Definition set_sniff_on_connection_fail (v : option bool) (t : Transport) : Transport :=
  mkTransport (_endpoints t) (_pool t) (_seed_connections t) (_sniffer_timeout t)
    (_sniff_timeout t) (_last_sniff t) (_max_retries t) v.

(** ** Coroutines: state and exceptions *)

(** A method run from a state ends in a state, with a value or an exception
    in flight; what it did to the state before raising stays done. *)
Definition M (A : Type) : Type := State -> State * result A.

Definition ret {A} (a : A) : M A := fun st => (st, Ok a).
Definition raise {A} (e : exn) : M A := fun st => (st, Raise e).
Definition lift {A} (r : result A) : M A := fun st => (st, r).

Definition bind {A B} (m : M A) (f : A -> M B) : M B := fun st =>
  match m st with
  | (st', Ok a) => f a st'
  | (st', Raise e) => (st', Raise e)
  end.

(** [try: m  except: h] *)
Definition try_except {A} (m : M A) (h : exn -> M A) : M A := fun st =>
  match m st with
  | (st', Ok a) => (st', Ok a)
  | (st', Raise e) => h e st'
  end.

Definition getattr {A} (f : Transport -> A) : M A := fun st => (st, Ok (f (self st))).
Definition setattr (f : Transport -> Transport) : M unit := fun st => (with_self f st, Ok tt).

Declare Scope py_scope.
Delimit Scope py_scope with py.
Notation "x <- m ;; k" := (bind m (fun x => k))
  (at level 100, m at next level, right associativity) : py_scope.
Notation "m ;; k" := (bind m (fun _ => k))
  (at level 100, right associativity) : py_scope.
Local Open Scope py_scope.

(** One interaction with the world. *)
Definition step (evs : list event) (st : State) : State :=
  mkState (self st) (S (tick st)) (next_id st) (closed st) (log st ++ evs).

Definition emit (ev : event) : M unit := fun st =>
  (mkState (self st) (tick st) (next_id st) (closed st) (log st ++ [ev]), Ok tt).

(** [time.monotonic()] *)
Definition monotonic (env : Env) : M float := fun st =>
  (step [] st, Ok (clock env (tick st))).

(** [c.perform_request(...)] *)
Definition Connection_perform_request (env : Env) (c : Connection) (r : request)
    : M (Z * payload) := fun st =>
  (step [EvRequest c r] st, transmit env (tick st) c r).

(** [Connection(endpoint, loop=...)]: a new object. *)
Definition Connection_new (e : endpoint_spec) : M Connection := fun st =>
  let c := mkConnection (next_id st) e in
  (mkState (self st) (tick st) (S (next_id st)) (closed st) (log st ++ [EvConnect c]), Ok c).

(** Modelled from the spec: the operations of [ConnectionPool], on
    [self._pool]. *)
Definition pool_get_connection (env : Env) : M Connection := fun st =>
  (step [EvSelect] st, select env (tick st) (_pool (self st))).

Definition pool_mark_dead (c : Connection) : M unit := fun st =>
  let p := _pool (self st) in
  (with_self (set_pool (mkPool (connections p) (dead p ++ [c]))) (step [EvMarkDead c] st), Ok tt).

Definition pool_mark_live (c : Connection) : M unit := fun st =>
  let p := _pool (self st) in
  (with_self (set_pool (mkPool (connections p) (filter (fun d => d ≠ c) (dead p))))
     (step [EvMarkLive c] st), Ok tt).

Definition pool_detach (c : Connection) : M unit := fun st =>
  let p := _pool (self st) in
  (with_self (set_pool (mkPool (filter (fun d => d ≠ c) (connections p)) (dead p)))
     (step [EvDetach c] st), Ok tt).

Definition pool_close : M unit := fun st =>
  let p := _pool (self st) in
  (mkState (set_pool (mkPool [] (dead p)) (self st)) (S (tick st)) (next_id st)
     (closed st ++ connections p) (log st ++ [EvClose (connections p)]), Ok tt).

(** ** Methods of [Transport] *)

(** [{c.endpoint: c for c in self._pool.connections}]: a later connection
    replaces an earlier one for the same endpoint. *)
Fixpoint index_connections (cs : list Connection) (old : gmap endpoint_spec Connection)
    : result (gmap endpoint_spec Connection) :=
  match cs with
  | [] => Ok old
  | c :: cs' =>
      if hashable (endpoint c)
      then index_connections cs' (<[endpoint c := c]> old)
      else Raise TypeError
  end.

(** The loop of [_reinitialize_endpoints] over [self._endpoints]. *)
Fixpoint _reinitialize_loop (old_connections : gmap endpoint_spec Connection)
    (endpoints : list endpoint_spec) (conns : list Connection) : M (list Connection) :=
  match endpoints with
  | [] => ret conns
  | e :: rest =>
      if hashable e then
        match old_connections !! e with
        | Some connection =>
            pool_detach connection;;
            _reinitialize_loop old_connections rest (conns ++ [connection])
        | None =>
            connection <- Connection_new e;;
            _reinitialize_loop old_connections rest (conns ++ [connection])
        end
      else raise TypeError
  end.

(** [Transport._reinitialize_endpoints] *)
Definition _reinitialize_endpoints (env : Env) : M unit :=
  pool <- getattr _pool;;
  old_connections <- lift (index_connections (connections pool) ∅);;
  endpoints <- getattr _endpoints;;
  conns <- _reinitialize_loop old_connections endpoints [];;
  pool_close;;
  shuffled <- (fun st => (step [] st, Ok (shuffle env (tick st) conns)));;
  setattr (set_pool (ConnectionPool_new shuffled)).

(** The [endpoints] property and its setter. *)
Definition endpoints (t : Transport) : list endpoint_spec := _endpoints t.

(** The properties [max_retries], [last_sniff] and [sniff_timeout]; the last
    one returns [self._sniffer_timeout]. *)
Definition max_retries (t : Transport) : Z := _max_retries t.
Definition last_sniff (t : Transport) : float := _last_sniff t.
Definition sniff_timeout (t : Transport) : option float := _sniffer_timeout t.

Definition endpoints_setter (env : Env) (endpoints : list endpoint_spec) : M unit :=
  setattr (set_endpoints_attr endpoints);;
  _reinitialize_endpoints env.

(** An object on which [__init__] has not run yet; [__init__] reads no
    attribute before it has assigned it. *)
Definition blank : Transport :=
  mkTransport [] (ConnectionPool_new []) [] None None 0%float 0 None.

Definition fresh_state : State := mkState blank 0 0 [] [].

(** [Transport.__init__] *)
Definition __init__ (env : Env) (endpoints : list endpoint_spec)
    (sniffer_timeout sniff_timeout : option float) (max_retries : Z) : M unit :=
  converted <- lift (_convert_endpoints endpoints);;
  setattr (set_endpoints_attr (IsEndpoint <$> converted));;
  setattr (set_pool (ConnectionPool_new []));;
  _reinitialize_endpoints env;;
  pool <- getattr _pool;;
  setattr (set_seed_connections (connections pool));;
  setattr (set_sniffer_timeout sniff_timeout);;
  setattr (set_sniff_timeout sniff_timeout);;
  now <- monotonic env;;
  setattr (set_last_sniff now);;
  setattr (set_max_retries max_retries).

(** The defaults of the keyword arguments of [__init__].  Python's literal
    [0.1] is the double nearest to one tenth, written out here in binary. *)
Definition default_sniffer_timeout : option float := None.
Definition default_sniff_timeout : option float := Some 0x1.999999999999ap-4%float.
Definition default_max_retries : Z := 3.

(** [Transport(endpoints, sniffer_timeout=..., sniff_timeout=...,
    max_retries=..., loop=loop)] *)
Definition Transport_new (env : Env) (endpoints : list endpoint_spec)
    (sniffer_timeout sniff_timeout : option float) (max_retries : Z) : State * result unit :=
  __init__ env endpoints sniffer_timeout sniff_timeout max_retries fresh_state.

(** The exceptions the candidate loop of [sniff_endpoints] swallows. *)
Definition swallowed (e : exn) : bool :=
  match e with
  | ConnectionError _ | TypeError | ValueError => true
  | _ => false
  end.

(** The request [sniff_endpoints] sends to a candidate:
    [c.perform_request('GET', '/_nodes/_all/clear', timeout=self._sniff_timeout)] *)
Definition sniff_request (sniff_timeout : option float) : request :=
  mkRequest "GET" "/_nodes/_all/clear" None None sniff_timeout.

(** The [for ... else] over the candidates in [sniff_endpoints]. *)
Fixpoint sniff_candidates (env : Env) (sniff_timeout : option float)
    (candidates : list Connection) : M value :=
  match candidates with
  | [] => raise (TransportError "N/A" "Unable to sniff endpoints.")
  | c :: rest =>
      try_except
        (response <- Connection_perform_request env c (sniff_request sniff_timeout);;
         lift (json_loads response.2))
        (fun e => if swallowed e
                  then sniff_candidates env sniff_timeout rest
                  else raise e)
  end.

(** [Transport.sniff_endpoints] *)
Definition sniff_endpoints (env : Env) : M unit :=
  emit EvSniff;;
  previous_sniff <- getattr _last_sniff;;
  node_info <-
    try_except
      (now <- monotonic env;;
       setattr (set_last_sniff now);;
       pool <- getattr _pool;;
       seeds <- getattr _seed_connections;;
       sniff_timeout <- getattr _sniff_timeout;;
       sniff_candidates env sniff_timeout (connections pool ++ seeds))
      (fun e => setattr (set_last_sniff previous_sniff);; raise e);;
  found <- lift (viable_endpoints node_info);;
  endpoints_setter env (IsEndpoint <$> found).

(** Truth value of a timeout: [None] and zero (of either sign) are false,
    every other double is true. *)
Definition truthy (t : option float) : bool :=
  match t with
  | None => false
  | Some q => negb (PrimFloat.eqb q 0%float)
  end.

(** [Transport.get_connection].  The times are doubles, as
    [time.monotonic()] returns them: the sum of line 102 is rounded before
    it is compared. *)
Definition get_connection (env : Env) : M Connection :=
  sniffer_timeout <- getattr _sniffer_timeout;;
  (if truthy sniffer_timeout then
     now <- monotonic env;;
     last <- getattr _last_sniff;;
     if PrimFloat.leb (PrimFloat.add last (default 0%float sniffer_timeout)) now
     then sniff_endpoints env
     else ret tt
   else ret tt);;
  pool_get_connection env.

(** [Transport.mark_dead] *)
Definition mark_dead (env : Env) (connection : Connection) : M unit :=
  pool_mark_dead connection;;
  flag <- getattr _sniff_on_connection_fail;;
  match flag with
  | None => raise (AttributeError "_sniff_on_connection_fail")
  | Some true => sniff_endpoints env
  | Some false => ret tt
  end.

(** What [perform_request] returns as data: the decoded text, or the data
    itself when it is false ([None], or the empty text). *)
Definition decode (data : payload) : result value :=
  match data with
  | NoData => Ok VNone
  | EmptyText => Ok (VStr "")
  | _ => json_loads data
  end.

(** The loop [for attempt in range(self.max_retries + 1)] of
    [perform_request]; when the range is exhausted the method returns
    [None]. *)
Fixpoint attempts (env : Env) (r : request) (range : list Z) : M (option (Z * value)) :=
  match range with
  | [] => ret None
  | attempt :: rest =>
      connection <- get_connection env;;
      outcome <-
        try_except
          (response <- Connection_perform_request env connection r;;
           ret (inl response))
          (fun e =>
             match e with
             | ConnectionError _ => ret (inr e)
             | _ => raise e
             end);;
      match outcome with
      | inr e =>
          (* except ConnectionError: *)
          mark_dead env connection;;
          max_retries <- getattr _max_retries;;
          if bool_decide (attempt = max_retries) then raise e
          else attempts env r rest
      | inl response =>
          (* else: *)
          pool_mark_live connection;;
          data <- lift (decode response.2);;
          ret (Some (response.1, data))
      end
  end.

(** [Transport.perform_request] *)
Definition perform_request (env : Env) (method url : string) (params body : option value)
    (request_timeout : option float) : M (option (Z * value)) :=
  max_retries <- getattr _max_retries;;
  attempts env (mkRequest method url params body request_timeout)
    (seqZ 0 (max_retries + 1)).

(** [Transport.close] *)
Definition close : M unit := pool_close.

(** ** Notions used to state the properties *)

(** A text that ends in [/host:port] or [/host:port]], as a list of
    characters: [host] drawn from the class of [ADDRESS_RE], [port] one or
    more digits. *)
Definition address_shaped (s : list ascii) : Prop :=
  ∃ pre h p closing,
    s = (pre ++ "/"%char :: h ++ ":"%char :: p ++ closing)%list
    ∧ Forall (fun c => host_class c = true) h
    ∧ p ≠ [] ∧ Forall (fun c => digit_class c = true) p
    ∧ (closing = [] ∨ closing = ["]"%char]).

(** [attrs.get(key, dflt)] as the attribute test reads it. *)
Definition attribute (attrs : list (string * value)) (key dflt : string) : value :=
  default (VStr dflt) (dict_get attrs key).

(** The canonical form of one entry of an endpoint list: an endpoint as it
    is, a dict with its port or 9200, anything else an error. *)
Definition canonical (e : endpoint_spec) : result Endpoint :=
  match e with
  | IsEndpoint ep => Ok ep
  | IsDict (Some h) p => Ok (mkEndpoint h (default 9200 p))
  | IsDict None _ => Raise (KeyError "host")
  | IsOther repr | IsUnhashable repr => Raise (RuntimeError ("Bad endpoint " +:+ repr))
  end.

(** What candidate [c] answers when it is asked at tick [k]: the decoded
    document, or the exception of the request or of [json.loads]. *)
Definition answer (env : Env) (sniff_timeout : option float) (k : nat) (c : Connection)
    : result value :=
  response ← transmit env k c (sniff_request sniff_timeout);
  json_loads response.2.

(** The candidates of a sniff: the connections of the pool, then the seeds. *)
Definition candidates (t : Transport) : list Connection :=
  connections (_pool t) ++ _seed_connections t.

(** The state in which the candidate loop of a sniff starts: the clock has
    been read and [_last_sniff] set to it. *)
Definition sniff_begun (env : Env) (st : State) : State :=
  mkState (set_last_sniff (clock env (tick st)) (self st)) (S (tick st)) (next_id st)
    (closed st) (log st ++ [EvSniff]).

(** The candidate loop of the sniff started from [st]. *)
Definition candidate_phase (env : Env) (st : State) : State * result value :=
  sniff_candidates env (_sniff_timeout (self st)) (candidates (self st)) (sniff_begun env st).

(** The requests of a sniff to the connections [cs], as events. *)
Definition probes (sniff_timeout : option float) (cs : list Connection) : list event :=
  (fun c => EvRequest c (sniff_request sniff_timeout)) <$> cs.

(** A state after [k] more interactions that left the transport as it was. *)
Definition advanced (st : State) (k : nat) (evs : list event) : State :=
  mkState (self st) (tick st + k) (next_id st) (closed st) (log st ++ evs).

(** A coroutine only ever adds to the log. *)
Definition grows {A} (m : M A) : Prop :=
  ∀ st, ∃ tail, log (m st).1 = log st ++ tail.

(** How many requests a log records. *)
Fixpoint count_requests (evs : list event) : nat :=
  match evs with
  | [] => 0
  | EvRequest _ _ :: evs' => S (count_requests evs')
  | _ :: evs' => count_requests evs'
  end.

(** A transport on which neither kind of sniff is switched on: no interval,
    and [_sniff_on_connection_fail] present and false. *)
Definition no_sniffing (t : Transport) : Prop :=
  _sniffer_timeout t = None ∧ _sniff_on_connection_fail t = Some false.

(** The objects that [Connection(e)] builds for the entries of a list, one
    after the other, the first of them being object number [first]. *)
Fixpoint fresh_connections (first : nat) (eps : list endpoint_spec) : list Connection :=
  match eps with
  | [] => []
  | e :: eps' => mkConnection first e :: fresh_connections (S first) eps'
  end.

(** The attributes that only [__init__] assigns. *)
Definition config (t : Transport)
    : list Connection * option float * option float * Z * option bool :=
  (_seed_connections t, _sniffer_timeout t, _sniff_timeout t, _max_retries t,
   _sniff_on_connection_fail t).

(** Events by kind. *)
Definition is_select (ev : event) : bool :=
  match ev with EvSelect => true | _ => false end.

Definition is_mark_dead (ev : event) : bool :=
  match ev with EvMarkDead _ => true | _ => false end.

Definition is_mark_live (ev : event) : bool :=
  match ev with EvMarkLive _ => true | _ => false end.

(** An event that does not touch the health marks of the pool and asks it
    for nothing. *)
Definition sniff_event (ev : event) : Prop :=
  is_select ev = false ∧ is_mark_dead ev = false ∧ is_mark_live ev = false.

(** How many events of a kind a log records. *)
Fixpoint count_events (kind : event -> bool) (evs : list event) : nat :=
  match evs with
  | [] => 0
  | ev :: evs' => (if kind ev then 1 else 0) + count_events kind evs'
  end.

(** A coroutine that leaves [config] alone and logs only events in [P]. *)
Definition behaves (P : event -> Prop) {A} (m : M A) : Prop :=
  ∀ st, config (self (m st).1) = config (self st)
        ∧ ∃ tail, log (m st).1 = log st ++ tail ∧ Forall P tail.

(** A coroutine that logs at most [n] events of a kind. *)
Definition bounded (kind : event -> bool) (n : nat) {A} (m : M A) : Prop :=
  ∀ st, ∃ tail, log (m st).1 = log st ++ tail ∧ (count_events kind tail ≤ n)%nat.

(** What [perform_request] returns for a response: status and decoded
    data, or the error of decoding. *)
Definition response_outcome (response : Z * payload) : result (option (Z * value)) :=
  data ← decode response.2; Ok (Some (response.1, data)).

(** ** Worlds and transports used as examples *)

(** A node-info entry that has an address and nothing else. *)
Definition node_at (addr : string) : value := VDict [("http_address", VStr addr)].

(** An address followed by a line feed. *)
Definition address_with_newline : string :=
  "x/1.2.3.4:9200" +:+ String "010"%char EmptyString.

(** Two nodes: [A] holds data, [B] is a dedicated master. *)
Definition node_A : value :=
  VDict [("http_address", VStr "inet[/10.0.0.1:9200]");
         ("attributes", VDict [("data", VStr "true")])].

Definition node_B : value :=
  VDict [("http_address", VStr "inet[/10.0.0.2:9200]");
         ("attributes", VDict [("data", VStr "false"); ("client", VStr "false");
                               ("master", VStr "true")])].

(** A pool that hands out its first connection. *)
Definition first_connection (p : ConnectionPool) : result Connection :=
  match connections p with
  | c :: _ => Ok c
  | [] => Raise PoolError
  end.

(** The number [k], below 2^63, as a double. *)
Definition seconds (k : nat) : float := PrimFloat.of_uint63 (Uint63.of_Z (Z.of_nat k)).

(** A world in which every request gets the same [reply], the clock shows
    [pace] seconds per tick, the pool hands out its first connection and a
    shuffle leaves the order as it is. *)
Definition world (reply : result (Z * payload)) (pace : float) : Env :=
  {| clock := fun k => PrimFloat.mul (seconds k) pace;
     transmit := fun _ _ _ => reply;
     select := fun _ p => first_connection p;
     shuffle := fun _ cs => cs |}.

(** A node that refuses connections, and a cluster whose only node is a
    dedicated master. *)
Definition refused : result (Z * payload) := Raise (ConnectionError "refused").

Definition only_masters : result (Z * payload) :=
  Ok (200, Json (VDict [("nodes", VDict [("B", node_B)])])).

(** A cluster of the two nodes. *)
Definition data_and_master : value := VDict [("nodes", VDict [("A", node_A); ("B", node_B)])].

(** [Transport([{'host': 'localhost'}], loop=loop)], every keyword argument
    at its default. *)
Definition localhost_transport (env : Env) : State :=
  (Transport_new env [IsDict (Some "localhost") None]
     default_sniffer_timeout default_sniff_timeout default_max_retries).1.

(** The connection that transport holds, the first object built. *)
Definition localhost_connection : Connection :=
  mkConnection 0 (IsEndpoint (mkEndpoint "localhost" 9200)).

(** That transport after [transport._sniff_on_connection_fail = flag],
    assigned from outside the class. *)
Definition localhost_transport_with (env : Env) (flag : bool) : State :=
  with_self (set_sniff_on_connection_fail (Some flag)) (localhost_transport env).

(** That transport with a second endpoint put in [_endpoints], before the
    pool is rebuilt. *)
Definition two_endpoints : list endpoint_spec :=
  [IsEndpoint (mkEndpoint "localhost" 9200); IsEndpoint (mkEndpoint "10.0.0.1" 9200)].

Definition localhost_transport_grown (env : Env) : State :=
  with_self (set_endpoints_attr two_endpoints) (localhost_transport env).

(** A request for the root path, and an endpoint list given as a dict. *)
Definition get_root : request := mkRequest "GET" "/" None None None.

Definition raw_endpoints : list endpoint_spec := [IsDict (Some "10.0.0.1") None].

(** A world whose pool always has a connection to hand out and whose
    nodes give, to a request sent at tick [k], the answer [reply k]. *)
Definition steady_world (reply : nat -> result (Z * payload)) : Env :=
  {| clock := fun k => seconds k;
     transmit := fun k _ _ => reply k;
     select := fun _ p => Ok (default localhost_connection (head (connections p)));
     shuffle := fun _ cs => cs |}.

(** Nodes that refuse connections until tick [up] and answer from then on. *)
Definition up_from (up : nat) (reply : Z * payload) (k : nat) : result (Z * payload) :=
  if (k <? up)%nat then refused else Ok reply.

(** [Transport([{'host': 'localhost'}], sniff_timeout=None, loop=loop)],
    followed by [transport._sniff_on_connection_fail = False]: a transport
    that never sniffs. *)
Definition quiet_transport (env : Env) : State :=
  with_self (set_sniff_on_connection_fail (Some false))
    (Transport_new env [IsDict (Some "localhost") None] None None 3).1.

(** A world whose clock stands at [now], its nodes refusing connections. *)
Definition stopped_clock (now : float) : Env :=
  {| clock := fun _ => now;
     transmit := fun _ _ _ => Raise (ConnectionError "refused");
     select := fun _ p => first_connection p;
     shuffle := fun _ cs => cs |}.

(** A transport after [transport._sniffer_timeout = 1.0] and
    [transport._last_sniff = 1e16]: at that magnitude neighbouring doubles
    are two apart, and the sum of the two attributes rounds to 1e16. *)
Definition long_running (env : Env) : State :=
  with_self (set_last_sniff 1e16%float)
    (with_self (set_sniffer_timeout (Some 1%float)) (localhost_transport env)).

(** An endpoint list that holds a list, ['localhost', 9200] say. *)
Definition list_entry : list endpoint_spec := [IsUnhashable "['localhost', 9200]"].

(** * Properties *)

(** ** The matcher *)

Section Matcher.

Lemma greedy_inv {R} cls (s : list ascii) (k : list ascii -> option R) r :
  Re.greedy cls s k = Some r →
  ∃ n, (n ≤ length s)%nat
       ∧ Forall (fun c => cls c = true) (take n s)
       ∧ k (drop n s) = Some r.
Proof.
  induction s as [|c s IH]; simpl; intros H.
  - exists 0%nat. simpl. split_and!; [lia | constructor | done].
  - destruct (cls c) eqn:Hc.
    + destruct (Re.greedy cls s k) as [m|] eqn:Hg.
      * destruct (IH H) as (n & Hn & Hall & Hk).
        exists (S n). simpl. split_and!; [lia | by constructor | congruence].
      * exists 0%nat. simpl. split_and!; [lia | constructor | done].
    + exists 0%nat. simpl. split_and!; [lia | constructor | done].
Qed.

Lemma captured_take (s : list ascii) n :
  (n ≤ length s)%nat → take (length s - length (drop n s)) s = take n s.
Proof. intros Hn. rewrite length_drop. f_equal. lia. Qed.

(** What a match of [ADDRESS_RE] at the head of [s] looks like. *)
Lemma ADDRESS_RE_match_inv (s : list ascii) caps :
  Re.rmatch ADDRESS_RE s ∅ (fun _ c => Some c) = Some caps →
  ∃ h p closing,
    s = ("/"%char :: h ++ ":"%char :: p ++ closing)%list
    ∧ Forall (fun c => host_class c = true) h
    ∧ p ≠ [] ∧ Forall (fun c => digit_class c = true) p
    ∧ (closing = [] ∨ closing = ["]"%char] ∨ closing = ["010"%char]
       ∨ closing = ["]"%char; "010"%char])
    ∧ caps = <["port" := string_of_list_ascii p]>
               (<["host" := string_of_list_ascii h]> ∅).
Proof.
  unfold ADDRESS_RE. cbn [Re.rmatch].
  destruct s as [|c0 s]; [done|].
  case_bool_decide as Hc0; [subst c0|done].
  intros H. apply greedy_inv in H as (n & Hn & Hh & H).
  rewrite (captured_take _ _ Hn) in H.
  destruct (drop n s) as [|c1 s1] eqn:Hd; [done|].
  case_bool_decide as Hc1; [subst c1|done].
  destruct s1 as [|c2 s2]; [done|].
  destruct (digit_class c2) eqn:Hc2; [|done].
  apply greedy_inv in H as (m & Hm & Hp & H).
  assert (Hcap : take (length (c2 :: s2) - length (drop m s2)) (c2 :: s2)
                 = c2 :: take m s2).
  { rewrite length_drop. simpl length.
    replace (S (length s2) - (length s2 - m))%nat with (S m) by lia. done. }
  rewrite Hcap in H.
  exists (take n s), (c2 :: take m s2), (drop m s2).
  assert (Hs : s = (take n s ++ ":"%char :: (c2 :: take m s2) ++ drop m s2)%list).
  { rewrite <- (take_drop n s) at 1. rewrite Hd. simpl.
    by rewrite (take_drop m s2). }
  split_and!; [by rewrite <- Hs | done | done | by constructor | | ].
  - destruct (drop m s2) as [|c3 s3]; [by left|].
    revert H. case_bool_decide as Hc3.
    + subst c3. unfold Re.at_dollar.
      destruct s3 as [|c4 [|c5 s5]]; simpl.
      * intros _. by right; left.
      * case_bool_decide as Hc4; [subst; intros _; by right; right; right|done].
      * done.
    + unfold Re.at_dollar. destruct s3 as [|c4 s4]; [|done].
      case_bool_decide as Hnl; [subst; intros _; by right; right; left|done].
  - destruct (drop m s2) as [|c3 s3]; [by injection H as <-|].
    revert H. case_bool_decide as Hc3.
    + destruct (Re.at_dollar s3); [congruence|].
      destruct (Re.at_dollar (c3 :: s3)); congruence.
    + destruct (Re.at_dollar (c3 :: s3)); congruence.
Qed.

Lemma search_from_inv (s : list ascii) caps :
  Re.search_from ADDRESS_RE s = Some caps →
  ∃ pre rest, s = (pre ++ rest)%list
              ∧ Re.rmatch ADDRESS_RE rest ∅ (fun _ c => Some c) = Some caps.
Proof.
  induction s as [|c s IH]; cbn [Re.search_from].
  - destruct (Re.rmatch ADDRESS_RE [] ∅ _) eqn:Hm; [|done].
    intros [= <-]. by exists [], [].
  - destruct (Re.rmatch ADDRESS_RE (c :: s) ∅ _) eqn:Hm.
    + intros [= <-]. by exists [], (c :: s).
    + intros H. destruct (IH H) as (pre & rest & -> & Hr).
      by exists (c :: pre), rest.
Qed.

(** Every match found by [ADDRESS_RE.search] captured both groups, from a
    text of the expected shape. *)
Lemma search_inv (addr : string) m :
  Re.search ADDRESS_RE addr = Some m →
  ∃ pre h p closing,
    list_ascii_of_string addr = (pre ++ "/"%char :: h ++ ":"%char :: p ++ closing)%list
    ∧ Forall (fun c => host_class c = true) h
    ∧ p ≠ [] ∧ Forall (fun c => digit_class c = true) p
    ∧ (closing = [] ∨ closing = ["]"%char] ∨ closing = ["010"%char]
       ∨ closing = ["]"%char; "010"%char])
    ∧ Re.groupdict m !! "host" = Some (Some (string_of_list_ascii h))
    ∧ Re.groupdict m !! "port" = Some (Some (string_of_list_ascii p)).
Proof.
  unfold Re.search. intros H.
  destruct (Re.search_from ADDRESS_RE (list_ascii_of_string addr)) as [caps|] eqn:Hs;
    [|done].
  injection H as <-.
  apply search_from_inv in Hs as (pre & rest & Hsplit & Hm).
  apply ADDRESS_RE_match_inv in Hm as (h & p & closing & -> & Hh & Hne & Hp & Hc & ->).
  exists pre, h, p, closing. split_and!; try done.
Qed.

Lemma host_group_participates (addr : string) m :
  Re.search ADDRESS_RE addr = Some m → ∃ h, Re.groupdict m !! "host" = Some (Some h).
Proof. intros H. apply search_inv in H as (?&h&?&?&?&?&?&?&?&?&?). eauto. Qed.

Lemma int_of_digits (p : list ascii) :
  p ≠ [] → Forall (fun c => digit_class c = true) p →
  ∃ z, int_of_text (string_of_list_ascii p) = Ok z.
Proof.
  intros Hne Hp. unfold int_of_text.
  rewrite list_ascii_of_string_of_list_ascii.
  rewrite bool_decide_eq_false_2 by done.
  rewrite (proj2 (forallb_forall _ _)); [eauto|].
  intros c Hc. rewrite Forall_forall in Hp. apply Hp. by apply list_elem_of_In.
Qed.

End Matcher.

(** ** Discovery: nodes and their attributes *)

Section Nodes.

(** A node whose address matched: the groups give host and port, and what
    is left of the loop body is the attribute test. *)
Lemma sniff_node_matched n addr m :
  get n "http_address" (VStr "") = Ok (VStr addr) →
  Re.search ADDRESS_RE addr = Some m →
  ∃ h digits z,
    Re.groupdict m !! "host" = Some (Some h)
    ∧ Re.groupdict m !! "port" = Some (Some digits)
    ∧ int_of_text digits = Ok z
    ∧ sniff_node n =
        (attrs ← get n "attributes" (VDict []);
         data ← get attrs "data" (VStr "true");
         dedicated_master ←
           (if eq_text data "false" then
              client ← get attrs "client" (VStr "false");
              if eq_text client "false" then
                master ← get attrs "master" (VStr "true");
                Ok (eq_text master "true")
              else Ok false
            else Ok false);
         if negb dedicated_master then Ok (Some (mkEndpoint h z)) else Ok None).
Proof.
  intros Hget Hsearch.
  destruct (search_inv _ _ Hsearch) as (pre & h & p & closing & _ & _ & Hne & Hp & _ & Hh & Hport).
  destruct (int_of_digits p Hne Hp) as [z Hz].
  exists (string_of_list_ascii h), (string_of_list_ascii p), z.
  split_and!; [done..|].
  unfold sniff_node. rewrite Hget. cbn [mbind result_bind]. rewrite Hsearch.
  cbv zeta. rewrite Hh, Hport. cbn [mbind result_bind].
  rewrite bool_decide_eq_true_2 by eauto. rewrite Hz. done.
Qed.

(** C6: a node whose address parsed is left out of the endpoint list
    exactly when its attributes read data = "false", client = "false" and
    master = "true", a missing attribute counting as data = "true",
    client = "false", master = "true"; otherwise its endpoint is appended.
    A response with a data node [A] and a dedicated master [B] yields the
    endpoint of [A] alone, and a sniff that gets this response leaves the
    transport with that endpoint. *)
Theorem dedicated_master_excluded :
  (∀ n addr m attrs,
     get n "http_address" (VStr "") = Ok (VStr addr) →
     Re.search ADDRESS_RE addr = Some m →
     get n "attributes" (VDict []) = Ok (VDict attrs) →
     (sniff_node n = Ok None
      ↔ attribute attrs "data" "true" = VStr "false"
        ∧ attribute attrs "client" "false" = VStr "false"
        ∧ attribute attrs "master" "true" = VStr "true")
     ∧ (sniff_node n ≠ Ok None → ∃ e, sniff_node n = Ok (Some e)))
  ∧ viable_endpoints data_and_master = Ok [mkEndpoint "10.0.0.1" 9200]
  ∧ (let env := world (Ok (200, Json data_and_master)) 1 in
     let after := sniff_endpoints env (localhost_transport env) in
     after.2 = Ok tt
     ∧ endpoints (self after.1) = [IsEndpoint (mkEndpoint "10.0.0.1" 9200)]).
Proof.
  split; [|by vm_compute].
  intros n addr m attrs Hget Hsearch Hattrs.
  destruct (sniff_node_matched _ _ _ Hget Hsearch) as (h & digits & z & _ & _ & _ & ->).
  rewrite Hattrs. cbn [mbind result_bind get]. fold (attribute attrs "data" "true").
  fold (attribute attrs "client" "false"). fold (attribute attrs "master" "true").
  assert (Htext : ∀ v t, eq_text v t = true ↔ v = VStr t).
  { intros v t. destruct v; simpl; try (split; [done|congruence]).
    rewrite bool_decide_eq_true. split; congruence. }
  destruct (eq_text (attribute attrs "data" "true") "false") eqn:Hd;
    [destruct (eq_text (attribute attrs "client" "false") "false") eqn:Hc;
     [destruct (eq_text (attribute attrs "master" "true") "true") eqn:Hm|]|];
    cbn [mbind result_bind negb];
    repeat match goal with
           | H : eq_text _ _ = true |- _ => apply Htext in H
           | H : eq_text ?v ?t = false |- _ =>
               assert (v ≠ VStr t) by (intros E; apply Htext in E; congruence); clear H
           end;
    (split; [split; [intros; first [done | by split_and!] | by intros (?&?&?)]
            | intros; first [done | eauto]]).
Qed.

(** The witness of C6: node [B]. *)
Lemma dedicated_master_excluded_witness : sniff_node node_B = Ok None.
Proof.
  destruct dedicated_master_excluded as [H _].
  destruct (Re.search ADDRESS_RE "inet[/10.0.0.2:9200]") as [m|] eqn:Hs;
    [|by vm_compute in Hs].
  apply (H node_B "inet[/10.0.0.2:9200]" m
           [("data", VStr "false"); ("client", VStr "false"); ("master", VStr "true")]
           eq_refl Hs eq_refl).
  by vm_compute.
Defined.

(** C10: when the address of a node matches [ADDRESS_RE], the test
    ['port' in dct] succeeds, so the branch that falls back to 9200 is not
    taken; groups [host] and [port] hold texts, the second one digits that
    [int] converts, and the node, unless its attributes make it a dedicated
    master, yields the endpoint of that host and that integer.  No endpoint
    built for the node carries another port. *)
Theorem port_is_parsed_from_match n addr m :
  get n "http_address" (VStr "") = Ok (VStr addr) →
  Re.search ADDRESS_RE addr = Some m →
  bool_decide (is_Some (Re.groupdict m !! "port")) = true
  ∧ ∃ h digits z,
      Re.groupdict m !! "host" = Some (Some h)
      ∧ Re.groupdict m !! "port" = Some (Some digits)
      ∧ int_of_text digits = Ok z
      ∧ (∀ attrs,
           get n "attributes" (VDict []) = Ok (VDict attrs) →
           sniff_node n =
             if eq_text (attribute attrs "data" "true") "false"
                && eq_text (attribute attrs "client" "false") "false"
                && eq_text (attribute attrs "master" "true") "true"
             then Ok None
             else Ok (Some (mkEndpoint h z)))
      ∧ ∀ e, sniff_node n = Ok (Some e) → port e = z.
Proof.
  intros Hget Hsearch.
  destruct (sniff_node_matched _ _ _ Hget Hsearch) as (h & digits & z & Hh & Hp & Hz & Heq).
  split; [rewrite bool_decide_eq_true, Hp; eauto|].
  exists h, digits, z. split_and!; [done..| |].
  - intros attrs Hattrs. rewrite Heq, Hattrs. cbn [mbind result_bind get].
    fold (attribute attrs "data" "true").
    fold (attribute attrs "client" "false"). fold (attribute attrs "master" "true").
    destruct (eq_text (attribute attrs "data" "true") "false"); [|done].
    destruct (eq_text (attribute attrs "client" "false") "false"); [|done].
    cbn [mbind result_bind andb].
    by destruct (eq_text (attribute attrs "master" "true") "true").
  - intros e. rewrite Heq. unfold mbind, result_bind.
    repeat case_match; intros; simplify_eq; done.
Qed.

(** The witness of C10: an address whose port is not 9200, on a node
    without attributes; the endpoint carries host and port of the address. *)
Lemma port_is_parsed_from_match_witness :
  sniff_node (node_at "foo/127.0.0.1:9300]") = Ok (Some (mkEndpoint "127.0.0.1" 9300)).
Proof.
  destruct (Re.search ADDRESS_RE "foo/127.0.0.1:9300]") as [m|] eqn:Hs;
    [|by vm_compute in Hs].
  destruct (port_is_parsed_from_match (node_at "foo/127.0.0.1:9300]") _ m eq_refl Hs)
    as (_ & h & digits & z & Hh & Hp & Hz & Hyield & _).
  assert (Hm : Some m = Re.search ADDRESS_RE "foo/127.0.0.1:9300]") by done.
  vm_compute in Hm. injection Hm as ->.
  vm_compute in Hh. injection Hh as <-.
  vm_compute in Hp. injection Hp as <-.
  vm_compute in Hz. injection Hz as <-.
  exact (Hyield [] eq_refl).
Defined.

Lemma address_shaped_last (s : list ascii) :
  address_shaped s →
  ∃ c, last s = Some c ∧ (digit_class c = true ∨ c = "]"%char).
Proof.
  intros (pre & h & p & closing & -> & _ & Hne & Hp & Hc).
  destruct Hc as [-> | ->].
  - rewrite app_nil_r.
    destruct (last p) as [c|] eqn:Hl; [|by apply last_None in Hl].
    exists c. split.
    + rewrite last_app, last_cons, last_app, last_cons, Hl. done.
    + left. apply last_Some in Hl as [l' ->].
      rewrite Forall_app, Forall_singleton in Hp. tauto.
  - exists "]"%char. split; [|by right].
    rewrite last_app, last_cons, last_app, last_cons, last_app. done.
Qed.

(** C9, as it holds: the address ["foo/127.0.0.1:9300]"] gives host
    127.0.0.1 and port 9300; a node whose address does not end in
    [/host:port] or [/host:port]], also not when one final line feed is set
    aside, is skipped without an error. *)
Theorem address_parsing :
  sniff_node (node_at "foo/127.0.0.1:9300]") = Ok (Some (mkEndpoint "127.0.0.1" 9300))
  ∧ ∀ n addr,
      get n "http_address" (VStr "") = Ok (VStr addr) →
      ¬ address_shaped (list_ascii_of_string addr) →
      (∀ s, list_ascii_of_string addr = (s ++ ["010"%char])%list → ¬ address_shaped s) →
      sniff_node n = Ok None.
Proof.
  split; [by vm_compute|].
  intros n addr Hget Hshape Hnl.
  destruct (Re.search ADDRESS_RE addr) as [m|] eqn:Hs.
  - exfalso.
    destruct (search_inv _ _ Hs) as (pre & h & p & closing & Heq & Hh & Hne & Hp & Hc & _).
    destruct Hc as [-> | [-> | [-> | ->]]].
    + apply Hshape. exists pre, h, p, []. rewrite Heq. split_and!; eauto.
    + apply Hshape. exists pre, h, p, ["]"%char]. rewrite Heq. split_and!; eauto.
    + apply (Hnl (pre ++ "/"%char :: h ++ ":"%char :: p ++ [])%list).
      * rewrite Heq. rewrite app_nil_r.
        by rewrite <- !app_assoc, <- !app_comm_cons, <- !app_assoc.
      * exists pre, h, p, []. split_and!; eauto.
    + apply (Hnl (pre ++ "/"%char :: h ++ ":"%char :: p ++ ["]"%char])%list).
      * rewrite Heq.
        by rewrite <- !app_assoc, <- !app_comm_cons, <- !app_assoc, <- !app_comm_cons,
             <- !app_assoc.
      * exists pre, h, p, ["]"%char]. split_and!; eauto.
  - unfold sniff_node. rewrite Hget. cbn [mbind result_bind]. by rewrite Hs.
Qed.

(** The witness of C9: a node whose address is a bare host name. *)
Lemma address_parsing_witness : sniff_node (node_at "localhost") = Ok None.
Proof.
  apply (proj2 address_parsing (node_at "localhost") "localhost" eq_refl).
  - intros H. apply address_shaped_last in H as (c & Hl & Hc).
    vm_compute in Hl. injection Hl as <-. by destruct Hc.
  - intros s Hs H.
    assert (Hl : last (list_ascii_of_string "localhost") = Some "010"%char)
      by (rewrite Hs, last_app; done).
    by vm_compute in Hl.
Defined.

(** C9 as stated fails: an address that ends in a line feed ends in neither
    [/host:port] nor [/host:port]], yet [$] matches before a final line
    feed and the node gives an endpoint. *)
Lemma address_parsing_counterexample :
  ¬ (∀ n addr,
       get n "http_address" (VStr "") = Ok (VStr addr) →
       ¬ address_shaped (list_ascii_of_string addr) →
       sniff_node n = Ok None).
Proof.
  intros H.
  specialize (H (node_at address_with_newline) address_with_newline eq_refl).
  assert (Hsniff : sniff_node (node_at address_with_newline)
                   = Ok (Some (mkEndpoint "1.2.3.4" 9200))) by (by vm_compute).
  rewrite Hsniff in H.
  assert (Ok (Some (mkEndpoint "1.2.3.4" 9200)) = Ok None → False) by done.
  apply H0, H. intros Hshape.
  apply address_shaped_last in Hshape as (c & Hl & Hc).
  vm_compute in Hl. injection Hl as <-. by destruct Hc.
Qed.

End Nodes.

(** ** Discovery: the candidates *)

Section Candidates.

Context (env : Env).

(** [sniff_endpoints], by the outcome of its candidate loop. *)
Lemma sniff_endpoints_unfold st :
  sniff_endpoints env st =
    match candidate_phase env st with
    | (st1, Ok node_info) =>
        match viable_endpoints node_info with
        | Ok found => endpoints_setter env (IsEndpoint <$> found) st1
        | Raise e => (st1, Raise e)
        end
    | (st1, Raise e) => (with_self (set_last_sniff (_last_sniff (self st))) st1, Raise e)
    end.
Proof.
  unfold sniff_endpoints, candidate_phase, bind, try_except, emit, getattr, setattr,
    monotonic, lift, raise, sniff_begun, candidates, step, with_self; simpl.
  rewrite app_nil_r.
  destruct (sniff_candidates _ _ _ _) as [st1 [v|e]]; [|done].
  by destruct (viable_endpoints v).
Qed.

(** The candidate loop asks; it does not touch the transport. *)
Lemma sniff_candidates_self t cs st :
  self (sniff_candidates env t cs st).1 = self st.
Proof.
  revert st. induction cs as [|c cs IH]; intros st; [done|].
  cbn [sniff_candidates]. unfold try_except, bind, Connection_perform_request, lift, raise.
  destruct (transmit env (tick st) c (sniff_request t)) as [resp|e]; simpl.
  - destruct (json_loads resp.2) as [v|e]; [done|].
    destruct (swallowed e); [by rewrite IH|done].
  - destruct (swallowed e); [by rewrite IH|done].
Qed.

Lemma sniff_candidates_cons t c cs st :
  sniff_candidates env t (c :: cs) st =
    match answer env t (tick st) c with
    | Ok v => (step [EvRequest c (sniff_request t)] st, Ok v)
    | Raise e =>
        if swallowed e
        then sniff_candidates env t cs (step [EvRequest c (sniff_request t)] st)
        else (step [EvRequest c (sniff_request t)] st, Raise e)
    end.
Proof.
  cbn [sniff_candidates].
  unfold answer, try_except, bind, Connection_perform_request, lift, raise.
  cbn [mbind result_bind].
  destruct (transmit env (tick st) c (sniff_request t)) as [resp|e];
    cbn [mbind result_bind].
  - destruct (json_loads resp.2) as [v|e]; [done|]. by destruct (swallowed e).
  - by destruct (swallowed e).
Qed.

Lemma advanced_step st ev k evs :
  advanced (step [ev] st) k evs = advanced st (S k) (ev :: evs).
Proof.
  unfold advanced, step. simpl. f_equal; [lia|].
  by rewrite <- app_assoc.
Qed.

Lemma advanced_0 st : advanced st 0 [] = st.
Proof.
  destruct st. unfold advanced. simpl. f_equal; [lia | by rewrite app_nil_r].
Qed.

(** The loop over candidates whose first [n] answers are swallowed:
    it is exhausted if there are no more, and stops at candidate [n] if
    that one answers otherwise. *)
Lemma sniff_candidates_run t cs : ∀ st n,
  (∀ i c, (i < n)%nat → cs !! i = Some c →
          ∃ e, answer env t (tick st + i) c = Raise e ∧ swallowed e = true) →
  (n = length cs →
     sniff_candidates env t cs st =
       (advanced st n (probes t cs),
        Raise (TransportError "N/A" "Unable to sniff endpoints.")))
  ∧ (∀ c, cs !! n = Some c →
       (∀ e, answer env t (tick st + n) c = Raise e → swallowed e = false) →
       sniff_candidates env t cs st =
         (advanced st (S n) (probes t (take (S n) cs)), answer env t (tick st + n) c)).
Proof.
  induction cs as [|c0 cs IH]; intros st n Hfail.
  - split; [|done]. intros ->. simpl. by rewrite advanced_0.
  - destruct n as [|n].
    + split; [done|]. intros c [= <-] Hc. rewrite sniff_candidates_cons.
      rewrite Nat.add_0_r in *. simpl take. unfold probes. simpl fmap.
      rewrite <- advanced_step, advanced_0.
      destruct (answer env t (tick st) c0) as [v|e]; [done|].
      by rewrite (Hc e eq_refl).
    + destruct (Hfail 0%nat c0) as (e & He & Hsw); [lia|done|].
      rewrite Nat.add_0_r in He.
      rewrite sniff_candidates_cons, He, Hsw.
      destruct (IH (step [EvRequest c0 (sniff_request t)] st) n) as [IH1 IH2].
      { intros i c Hi Hc. simpl.
        replace (S (tick st + i)) with (tick st + S i)%nat by lia.
        apply Hfail; [lia|done]. }
      split.
      * intros [= ->]. rewrite IH1 by done. by rewrite advanced_step.
      * intros c Hc Hns. simpl in Hc.
        replace (tick st + S n)%nat
          with (tick (step [EvRequest c0 (sniff_request t)] st) + n)%nat in *
          by (simpl; lia).
        rewrite (IH2 c Hc Hns). by rewrite advanced_step.
Qed.

(** A loop that ends in an exception, none of the answers being a fatal
    one, has had no answer that decoded. *)
Lemma sniff_candidates_failed t cs : ∀ st st' e,
  sniff_candidates env t cs st = (st', Raise e) →
  (∀ i c e', cs !! i = Some c → answer env t (tick st + i) c = Raise e' →
             swallowed e' = true) →
  e = TransportError "N/A" "Unable to sniff endpoints."
  ∧ ∀ i c, cs !! i = Some c → ∃ e', answer env t (tick st + i) c = Raise e'.
Proof.
  induction cs as [|c0 cs IH]; intros st st' e Hrun Hsw.
  - simpl in Hrun. unfold raise in Hrun. by simplify_eq.
  - rewrite sniff_candidates_cons in Hrun.
    destruct (answer env t (tick st) c0) as [v|e0] eqn:Ha; [done|].
    rewrite (Hsw 0%nat c0 e0) in Hrun by (by rewrite ?Nat.add_0_r).
    apply IH in Hrun as [-> Hall].
    + split; [done|]. intros [|i] c Hc.
      * simpl in Hc. simplify_eq. rewrite Nat.add_0_r. eauto.
      * simpl in Hc. replace (tick st + S i)%nat with (S (tick st) + i)%nat by lia.
        by apply Hall.
    + intros i c e' Hc He'. apply (Hsw (S i) c e'); [done|].
      by replace (tick st + S i)%nat with (S (tick st) + i)%nat by lia.
Qed.

End Candidates.

(** ** Discovery: [sniff_endpoints] *)

Section Sniffing.

Context (env : Env).

Lemma candidate_phase_self st :
  self (candidate_phase env st).1 = set_last_sniff (clock env (tick st)) (self st).
Proof. unfold candidate_phase. by rewrite sniff_candidates_self. Qed.

(** C8: the candidates of a sniff are the connections of the pool followed
    by the seeds, asked in that order.  The loop stops at the first one
    whose response decodes, having asked no later one; a candidate that
    fails with a connection error or whose response does not decode is
    passed over; and when every candidate is passed over (only then, if no
    other kind of exception occurs) the sniff fails with the error
    "Unable to sniff endpoints.". *)
Theorem candidates_in_order st :
  let t := _sniff_timeout (self st) in
  let cs := connections (_pool (self st)) ++ _seed_connections (self st) in
  let asked i c := answer env t (S (tick st) + i) c in
  (∀ n c v,
     (∀ i c', (i < n)%nat → cs !! i = Some c' →
              ∃ e, asked i c' = Raise e ∧ swallowed e = true) →
     cs !! n = Some c → asked n c = Ok v →
     ∃ st1, candidate_phase env st = (st1, Ok v)
            ∧ log st1 = log st ++ EvSniff :: probes t (take (S n) cs))
  ∧ ((∀ i c, cs !! i = Some c → ∃ e, asked i c = Raise e ∧ swallowed e = true) →
     ∃ st', sniff_endpoints env st
            = (st', Raise (TransportError "N/A" "Unable to sniff endpoints."))
            ∧ log st' = log st ++ EvSniff :: probes t cs)
  ∧ (∀ st1 e,
       candidate_phase env st = (st1, Raise e) →
       (∀ i c e', cs !! i = Some c → asked i c = Raise e' → swallowed e' = true) →
       e = TransportError "N/A" "Unable to sniff endpoints."
       ∧ ∀ i c, cs !! i = Some c → ∃ e', asked i c = Raise e').
Proof.
  intros t cs asked. split_and!.
  - intros n c v Hfail Hc Hv.
    destruct (sniff_candidates_run env t cs (sniff_begun env st) n) as [_ Hstop].
    { intros i c' Hi Hc'. by apply Hfail. }
    specialize (Hstop c Hc). simpl tick in Hstop. fold (asked n c) in Hstop.
    rewrite Hv in Hstop. eexists. split; [apply Hstop; intros; congruence|].
    simpl. by rewrite <- app_assoc.
  - intros Hfail.
    destruct (sniff_candidates_run env t cs (sniff_begun env st) (length cs)) as [Hall _].
    { intros i c' _ Hc'. by apply Hfail. }
    rewrite sniff_endpoints_unfold. unfold candidate_phase, candidates.
    fold t cs. rewrite Hall by done. eexists. split; [done|].
    simpl. by rewrite <- app_assoc.
  - intros st1 e Hrun Hsw.
    apply (sniff_candidates_failed env t cs (sniff_begun env st) st1 e Hrun).
    intros i c e' Hc. by apply Hsw.
Qed.

(** The two ways a sniff fails.  When the candidate phase raises, the
    handler of lines 136-139 puts [_last_sniff] back.  When the candidate
    phase gives a document and the rest of the method raises, no handler is
    in force and [_last_sniff] stays at the time the sniff began.  Either
    way the endpoints and the pool are the ones from before. *)
Lemma failed_sniff st st1 :
  (∀ e, candidate_phase env st = (st1, Raise e) →
        ∃ st', sniff_endpoints env st = (st', Raise e)
               ∧ _last_sniff (self st') = _last_sniff (self st)
               ∧ _endpoints (self st') = _endpoints (self st)
               ∧ _pool (self st') = _pool (self st))
  ∧ (∀ node_info e,
       candidate_phase env st = (st1, Ok node_info) →
       viable_endpoints node_info = Raise e →
       ∃ st', sniff_endpoints env st = (st', Raise e)
              ∧ _last_sniff (self st') = clock env (tick st)
              ∧ _endpoints (self st') = _endpoints (self st)
              ∧ _pool (self st') = _pool (self st)).
Proof.
  split.
  - intros e Hrun. rewrite sniff_endpoints_unfold, Hrun.
    eexists. split; [done|].
    pose proof (candidate_phase_self st) as Hself. rewrite Hrun in Hself. simpl in Hself.
    simpl. rewrite Hself. done.
  - intros v e Hrun Hv. rewrite sniff_endpoints_unfold, Hrun, Hv.
    eexists. split; [done|].
    pose proof (candidate_phase_self st) as Hself. rewrite Hrun in Hself. simpl in Hself.
    rewrite Hself. done.
Qed.

End Sniffing.

(** The witness of C8: a transport whose only node refuses connections. *)
Lemma candidates_in_order_witness :
  ∃ st', sniff_endpoints (world refused 0) (localhost_transport (world refused 0))
         = (st', Raise (TransportError "N/A" "Unable to sniff endpoints.")).
Proof.
  destruct (proj1 (proj2 (candidates_in_order (world refused 0)
                            (localhost_transport (world refused 0)))))
    as (st' & Hrun & _).
  - intros i c _. exists (ConnectionError "refused"). split; reflexivity.
  - by exists st'.
Defined.

(** A failure of the second kind: a cluster that answers, with dedicated
    masters only. *)
Lemma failed_sniff_witness :
  ∃ st', sniff_endpoints (world only_masters 1) (localhost_transport (world only_masters 1))
         = (st', Raise (TransportError "N/A"
                          "Unable to sniff endpoints - no viable endpoints found."))
         ∧ _endpoints (self st')
           = _endpoints (self (localhost_transport (world only_masters 1))).
Proof.
  pose (env := world only_masters 1).
  destruct (candidate_phase env (localhost_transport env)) as [st1 r] eqn:Hrun.
  assert (Hr : r = (candidate_phase env (localhost_transport env)).2) by (by rewrite Hrun).
  vm_compute in Hr. subst r.
  destruct (proj2 (failed_sniff env (localhost_transport env) st1) _ _ Hrun eq_refl)
    as (st' & Hs & _ & He & _).
  by exists st'.
Defined.

(** C1: on a transport built a second ago, a sniff answered by a cluster
    of dedicated masters only fails with "no viable endpoints found" and
    leaves [_last_sniff] at the time the sniff began, which is not the value
    it had before; endpoints and pool are the ones from before.  A sniff of
    the same transport that no node answers fails and leaves [_last_sniff]
    at the value it had before: the handler that says "keep the previous
    value on error" covers that failure and not the other. *)
Theorem sniff_without_viable_endpoints :
  let env := world only_masters 1 in
  let st := localhost_transport env in
  let after := sniff_endpoints env st in
  (after.2
   = Raise (TransportError "N/A" "Unable to sniff endpoints - no viable endpoints found.")
   ∧ _last_sniff (self after.1) = clock env (tick st)
   ∧ _last_sniff (self after.1) ≠ _last_sniff (self st)
   ∧ _endpoints (self after.1) = _endpoints (self st)
   ∧ _pool (self after.1) = _pool (self st))
  ∧ (let env' := world refused 1 in
     let st' := localhost_transport env' in
     let after' := sniff_endpoints env' st' in
     after'.2 = Raise (TransportError "N/A" "Unable to sniff endpoints.")
     ∧ _last_sniff (self after'.1) = _last_sniff (self st')).
Proof.
  split; [split_and!|split]; by vm_compute.
Qed.

(** ** The log only grows *)

Section Log.

Context (env : Env).

Lemma grows_ret {A} (a : A) : grows (ret a).
Proof. intros st. exists []. simpl. by rewrite app_nil_r. Qed.

Lemma grows_raise {A} e : grows (raise (A:=A) e).
Proof. intros st. exists []. simpl. by rewrite app_nil_r. Qed.

Lemma grows_lift {A} (r : result A) : grows (lift r).
Proof. intros st. exists []. simpl. by rewrite app_nil_r. Qed.

Lemma grows_getattr {A} (f : Transport -> A) : grows (getattr f).
Proof. intros st. exists []. simpl. by rewrite app_nil_r. Qed.

Lemma grows_setattr f : grows (setattr f).
Proof. intros st. exists []. simpl. by rewrite app_nil_r. Qed.

Lemma grows_emit ev : grows (emit ev).
Proof. intros st. by exists [ev]. Qed.

Lemma grows_bind {A B} (m : M A) (f : A -> M B) :
  grows m → (∀ a, grows (f a)) → grows (bind m f).
Proof.
  intros Hm Hf st. unfold bind. destruct (Hm st) as [t1 H1].
  destruct (m st) as [st1 [a|e]]; simpl in *.
  - destruct (Hf a st1) as [t2 H2]. exists (t1 ++ t2). by rewrite H2, H1, app_assoc.
  - by exists t1.
Qed.

Lemma grows_try_except {A} (m : M A) (h : exn -> M A) :
  grows m → (∀ e, grows (h e)) → grows (try_except m h).
Proof.
  intros Hm Hh st. unfold try_except. destruct (Hm st) as [t1 H1].
  destruct (m st) as [st1 [a|e]]; simpl in *.
  - by exists t1.
  - destruct (Hh e st1) as [t2 H2]. exists (t1 ++ t2). by rewrite H2, H1, app_assoc.
Qed.

Lemma grows_monotonic : grows (monotonic env).
Proof. intros st. by exists []. Qed.

Lemma grows_Connection_perform_request c r : grows (Connection_perform_request env c r).
Proof. intros st. by exists [EvRequest c r]. Qed.

Lemma grows_Connection_new e : grows (Connection_new e).
Proof. intros st. by eexists [_]. Qed.

Lemma grows_pool_get_connection : grows (pool_get_connection env).
Proof. intros st. by exists [EvSelect]. Qed.

Lemma grows_pool_mark_dead c : grows (pool_mark_dead c).
Proof. intros st. by exists [EvMarkDead c]. Qed.

Lemma grows_pool_mark_live c : grows (pool_mark_live c).
Proof. intros st. by exists [EvMarkLive c]. Qed.

Lemma grows_pool_detach c : grows (pool_detach c).
Proof. intros st. by exists [EvDetach c]. Qed.

Lemma grows_pool_close : grows pool_close.
Proof. intros st. by eexists [_]. Qed.

Create HintDb grows.

#[local] Hint Resolve grows_ret grows_raise grows_lift grows_getattr grows_setattr grows_emit
  grows_monotonic grows_Connection_perform_request grows_Connection_new
  grows_pool_get_connection grows_pool_mark_dead grows_pool_mark_live
  grows_pool_detach grows_pool_close : grows.

Ltac grows_step :=
  first [ solve [auto with grows]
        | apply grows_bind; [|intros ?]
        | apply grows_try_except; [|intros ?] ].

Lemma grows_sniff_candidates t cs : grows (sniff_candidates env t cs).
Proof.
  induction cs as [|c cs IH]; cbn [sniff_candidates]; repeat grows_step.
  case_match; auto with grows.
Qed.

#[local] Hint Resolve grows_sniff_candidates : grows.

Lemma grows__reinitialize_loop m eps : ∀ conns, grows (_reinitialize_loop m eps conns).
Proof.
  induction eps as [|e eps IH]; intros conns; cbn [_reinitialize_loop];
    repeat case_match; repeat grows_step; apply IH.
Qed.

#[local] Hint Resolve grows__reinitialize_loop : grows.

Lemma grows__reinitialize_endpoints : grows (_reinitialize_endpoints env).
Proof.
  unfold _reinitialize_endpoints. repeat grows_step.
Qed.

#[local] Hint Resolve grows__reinitialize_endpoints : grows.

Lemma grows_sniff_endpoints : grows (sniff_endpoints env).
Proof.
  unfold sniff_endpoints, endpoints_setter. repeat grows_step.
Qed.

(** A sniff logs its start before anything else it does. *)
Lemma sniff_endpoints_log st :
  ∃ tail, log (sniff_endpoints env st).1 = log st ++ EvSniff :: tail.
Proof.
  unfold sniff_endpoints.
  match goal with
  | |- context [bind (emit EvSniff) ?k] =>
      assert (Hk : grows (k tt))
  end.
  { unfold endpoints_setter. repeat grows_step. }
  unfold bind at 1. simpl.
  match goal with
  | Hk : grows ?m |- context [?m ?s] => destruct (Hk s) as [tail Ht]
  end.
  exists tail. rewrite Ht. simpl. by rewrite <- app_assoc.
Qed.

End Log.

(** ** Connection acquisition *)

(** X12: [get_connection] goes by the attribute [_sniffer_timeout].  When
    it is [None] or zero the pool is asked at once, without a look at the
    clock.  Otherwise the clock is read, and a sniff comes first exactly when
    the comparison of line 102 holds of the doubles at hand: the clock is at
    least the rounded sum of [_last_sniff] and [_sniffer_timeout].  If that
    sniff fails, its error leaves [get_connection] and the pool is not
    asked. *)
Theorem get_connection_sniffs_when_due env st :
  (truthy (_sniffer_timeout (self st)) = false →
     get_connection env st = pool_get_connection env st)
  ∧ (∀ interval,
       _sniffer_timeout (self st) = Some interval →
       truthy (Some interval) = true →
       let due := PrimFloat.leb (PrimFloat.add (_last_sniff (self st)) interval)
                    (clock env (tick st)) = true in
       (due →
          get_connection env st =
            match sniff_endpoints env (step [] st) with
            | (st1, Ok _) => pool_get_connection env st1
            | (st1, Raise e) => (st1, Raise e)
            end)
       ∧ (¬ due → get_connection env st = pool_get_connection env (step [] st))
       ∧ (log (get_connection env st).1 !! length (log st) = Some EvSniff ↔ due)).
Proof.
  split.
  - intros H. unfold get_connection, bind, getattr. simpl. by rewrite H.
  - intros interval Hi Ht due. subst due.
    assert (Heq : get_connection env st =
              if PrimFloat.leb (PrimFloat.add (_last_sniff (self st)) interval)
                   (clock env (tick st))
              then match sniff_endpoints env (step [] st) with
                   | (st1, Ok _) => pool_get_connection env st1
                   | (st1, Raise e) => (st1, Raise e)
                   end
              else pool_get_connection env (step [] st)).
    { unfold get_connection, bind, getattr, monotonic. simpl. rewrite Hi, Ht. simpl.
      by destruct (PrimFloat.leb _ _). }
    rewrite Heq.
    destruct (PrimFloat.leb (PrimFloat.add (_last_sniff (self st)) interval)
                (clock env (tick st))).
    + split; [done|split; [done|]].
      split; [done|intros _].
      destruct (sniff_endpoints_log env (step [] st)) as [tail Htail].
      destruct (sniff_endpoints env (step [] st)) as [st1 [[]|e]]; simpl in *.
      * rewrite Htail, app_nil_r.
        rewrite <- app_assoc, lookup_app_r by lia.
        by replace (length (log st) - length (log st))%nat with 0%nat by lia.
      * rewrite Htail, app_nil_r, lookup_app_r by lia.
        by replace (length (log st) - length (log st))%nat with 0%nat by lia.
    + split; [done|split; [done|]].
      split; [|done]. unfold pool_get_connection. simpl.
      rewrite !app_nil_r, lookup_app_r by lia.
      by replace (length (log st) - length (log st))%nat with 0%nat by lia.
Qed.

(** The witness of X12: a second after construction, with the interval of
    0.1 s that the constructor stored. *)
Lemma get_connection_sniffs_when_due_witness :
  let env := world refused 1 in
  let st := localhost_transport env in
  log (get_connection env st).1 !! length (log st) = Some EvSniff.
Proof.
  intros env st.
  destruct (get_connection_sniffs_when_due env st) as [_ H].
  destruct (H 0x1.999999999999ap-4%float eq_refl eq_refl) as (_ & _ & Hiff).
  apply Hiff. by vm_compute.
Defined.

(** The comparison is made on doubles.  With [_last_sniff] at 1e16 s and
    an interval of one second the sum is 1e16 again, so a clock that still
    stands at 1e16 s is found to have reached it and a sniff begins; one
    second has not passed. *)
Lemma get_connection_rounded_sum :
  let env := stopped_clock 1e16%float in
  let st := long_running env in
  truthy (_sniffer_timeout (self st)) = true
  ∧ clock env (tick st) = _last_sniff (self st)
  ∧ log (get_connection env st).1 !! length (log st) = Some EvSniff.
Proof. by vm_compute. Qed.

(** ** Failure handling *)

(** C5: [mark_dead] first has the pool mark the connection dead, and only
    then, and only if [_sniff_on_connection_fail] is set and true, runs
    [sniff_endpoints], from the state the pool operation left.  In the log
    the pool operation comes first and the start of a sniff follows exactly
    when the flag is on.  (On an object without the attribute the method ends
    in an [AttributeError] after the pool operation, without a sniff.) *)
Theorem mark_dead_then_sniff env c st :
  let marked := (pool_mark_dead c st).1 in
  c ∈ dead (_pool (self marked))
  ∧ ∃ tail,
      log (mark_dead env c st).1 = log st ++ EvMarkDead c :: tail
      ∧ (EvSniff ∈ tail ↔ _sniff_on_connection_fail (self st) = Some true)
      ∧ (_sniff_on_connection_fail (self st) = Some true →
           mark_dead env c st = sniff_endpoints env marked
           ∧ ∃ tail', tail = EvSniff :: tail')
      ∧ (_sniff_on_connection_fail (self st) ≠ Some true →
           tail = [] ∧ (mark_dead env c st).1 = marked).
Proof.
  intros marked. split.
  { subst marked. simpl. set_solver. }
  unfold mark_dead, bind, getattr. subst marked. simpl.
  destruct (_sniff_on_connection_fail (self st)) as [[|]|] eqn:Hflag.
  - match goal with
    | |- context [sniff_endpoints env ?s] =>
        destruct (sniff_endpoints_log env s) as [tail Ht]; exists (EvSniff :: tail)
    end.
    split_and!.
    + rewrite Ht. simpl. by rewrite <- app_assoc.
    + split; [done|]. intros _. set_solver.
    + intros _. split; [done|eauto].
    + done.
  - exists []. split_and!; [done| |done|done].
    split; [|done]. intros H. by apply elem_of_nil in H.
  - exists []. split_and!; [done| |done|done].
    split; [|done]. intros H. by apply elem_of_nil in H.
Qed.

(** The witness of C5: the flag switched on from outside, on a transport
    whose node refuses connections. *)
Lemma mark_dead_then_sniff_witness :
  let env := world refused 0 in
  let st := localhost_transport_with env true in
  let c := localhost_connection in
  mark_dead env c st = sniff_endpoints env (pool_mark_dead c st).1.
Proof.
  intros env st c.
  destruct (mark_dead_then_sniff env c st) as (_ & tail & _ & _ & Hon & _).
  by apply Hon.
Defined.

(** ** Topology: rebuilding the pool *)

Section Reinitialize.

Context (env : Env).

Lemma set_pool_set_pool p p' t : set_pool p (set_pool p' t) = set_pool p t.
Proof. done. Qed.

(** The index built from hashable endpoints: it maps an endpoint to a
    connection of the list that was built for it, and has an entry for
    every endpoint of the list. *)
Lemma index_connections_ok cs : ∀ m0,
  Forall (fun c => hashable (endpoint c) = true) cs →
  ∃ m, index_connections cs m0 = Ok m
       ∧ (∀ e c, m !! e = Some c → (c ∈ cs ∧ endpoint c = e) ∨ m0 !! e = Some c)
       ∧ (∀ e, is_Some (m0 !! e) ∨ (∃ c, c ∈ cs ∧ endpoint c = e) → is_Some (m !! e)).
Proof.
  induction cs as [|c cs IH]; intros m0 Hh.
  - exists m0. split_and!; [done|by right|].
    intros e [H|(c & Hc & _)]; [done|]. by apply elem_of_nil in Hc.
  - apply Forall_cons in Hh as [Hc Hh]. cbn [index_connections]. rewrite Hc.
    destruct (IH (<[endpoint c := c]> m0) Hh) as (m & -> & Hsound & Hcomplete).
    exists m. split_and!; [done| |].
    + intros e c' Hm. destruct (Hsound e c' Hm) as [[Hin He]|Hins].
      * left. split; [by right|done].
      * destruct (decide (endpoint c = e)) as [<-|Hne].
        -- rewrite lookup_insert_eq in Hins. injection Hins as <-.
           left. split; [by left|done].
        -- rewrite lookup_insert_ne in Hins by done. by right.
    + intros e H. apply Hcomplete.
      destruct (decide (endpoint c = e)) as [<-|Hne].
      * left. rewrite lookup_insert_eq. eauto.
      * destruct H as [H|(c' & Hc' & He)].
        -- left. by rewrite lookup_insert_ne.
        -- right. exists c'. split; [|done].
           apply elem_of_cons in Hc' as [->|Hc']; [done|done].
Qed.

(** The loop of [_reinitialize_endpoints]: what it adds, what it leaves in
    the old pool, and what it leaves alone. *)
Lemma _reinitialize_loop_run m : ∀ eps conns st,
  Forall (fun e => hashable e = true) eps →
  ∃ st2 added,
    _reinitialize_loop m eps conns st = (st2, Ok (conns ++ added))
    ∧ self st2 = set_pool (_pool (self st2)) (self st)
    ∧ (∀ d, d ∈ connections (_pool (self st2))
            ↔ d ∈ connections (_pool (self st)) ∧ ∀ e, e ∈ eps → m !! e ≠ Some d)
    ∧ Forall2 (fun e c => m !! e = Some c
                          ∨ (m !! e = None ∧ endpoint c = e
                             ∧ (next_id st ≤ conn_id c)%nat)) eps added
    ∧ closed st2 = closed st
    ∧ (next_id st ≤ next_id st2)%nat.
Proof.
  induction eps as [|e eps IH]; intros conns st Hh.
  - exists st, []. rewrite app_nil_r. split_and!; try done.
    + by destruct st as [[]].
    + intros d. split; [|tauto]. intros Hd. split; [done|].
      intros e He. by apply elem_of_nil in He.
  - apply Forall_cons in Hh as [He Hh]. cbn [_reinitialize_loop]. rewrite He.
    destruct (m !! e) as [c|] eqn:Hm.
    + unfold bind at 1. cbn [pool_detach].
      match goal with
      | |- context [_reinitialize_loop m eps _ ?s] =>
          destruct (IH (conns ++ [c]) s Hh)
            as (st2 & added & Hrun & Hself & Hpool & Hadded & Hclosed & Hnext)
      end.
      exists st2, (c :: added). rewrite Hrun.
      split_and!.
      * by rewrite <- app_assoc.
      * rewrite Hself. by destruct st as [[]].
      * intros d. rewrite Hpool. simpl. rewrite list_elem_of_filter.
        split.
        -- intros [[Hne Hd] Hrest]. split; [done|].
           intros e' [->|He']%elem_of_cons; [congruence|by apply Hrest].
        -- intros [Hd Hrest]. split_and!; [|done|].
           ++ intros ->. by apply (Hrest e); [left|].
           ++ intros e' He'. apply Hrest. by right.
      * constructor; [by left|done].
      * done.
      * done.
    + unfold bind at 1. cbn [Connection_new].
      match goal with
      | |- context [_reinitialize_loop m eps (conns ++ [?c]) ?s] =>
          destruct (IH (conns ++ [c]) s Hh)
            as (st2 & added & Hrun & Hself & Hpool & Hadded & Hclosed & Hnext);
          exists st2, (c :: added)
      end.
      rewrite Hrun. simpl in *.
      split_and!.
      * by rewrite <- app_assoc.
      * rewrite Hself. by destruct st as [[]].
      * intros d. rewrite Hpool. split.
        -- intros [Hd Hrest]. split; [done|].
           intros e' [->|He']%elem_of_cons; [congruence|by apply Hrest].
        -- intros [Hd Hrest]. split; [done|].
           intros e' He'. apply Hrest. by right.
      * constructor; [right; simpl; split_and!; [done|done|lia]|].
        eapply Forall2_impl; [done|].
        intros e' c' [H|(H1 & H2 & H3)]; [by left|right; split_and!; [done|done|lia]].
      * done.
      * lia.
Qed.

(** C7: when the endpoint list holds [Endpoint]s and the connections of the
    old pool were built for [Endpoint]s, rebuilding the pool succeeds, and
    then
    - an endpoint that some connection of the old pool was built for is
      served in the new pool by such a connection, the very same object,
      which was taken out of the old pool and is not among the connections
      released when the old pool is closed;
    - a connection of the new pool that was not in the old one is a new
      object, built for an endpoint that no old connection was built for;
    - the connections of the old pool whose endpoint is not in the new
      list are released;
    - the new pool has one connection per entry of the endpoint list. *)
Theorem reinitialize_reuses_connections st :
  let old := connections (_pool (self st)) in
  let eps := _endpoints (self st) in
  Forall (fun e => is_Endpoint e = true) eps →
  Forall (fun c => is_Endpoint (endpoint c) = true) old →
  (∀ k l, shuffle env k l ≡ₚ l) →
  ∃ st' released,
    _reinitialize_endpoints env st = (st', Ok tt)
    ∧ closed st' = closed st ++ released
    ∧ _endpoints (self st') = eps
    ∧ (∀ e, e ∈ eps → (∃ c, c ∈ old ∧ endpoint c = e) →
            ∃ c, c ∈ old ∧ endpoint c = e
                 ∧ c ∈ connections (_pool (self st')) ∧ c ∉ released)
    ∧ (∀ c, c ∈ connections (_pool (self st')) → c ∉ old →
            endpoint c ∈ eps ∧ (next_id st ≤ conn_id c)%nat
            ∧ ∀ c', c' ∈ old → endpoint c' ≠ endpoint c)
    ∧ (∀ c, c ∈ old → endpoint c ∉ eps → c ∈ released)
    ∧ (∀ e, e ∈ eps → ∃ c, c ∈ connections (_pool (self st')) ∧ endpoint c = e)
    ∧ length (connections (_pool (self st'))) = length eps.
Proof.
  intros old eps Heps' Hold' Hshuffle.
  assert (Heps : Forall (fun e => hashable e = true) eps).
  { eapply Forall_impl; [exact Heps'|]. by intros []. }
  assert (Hold : Forall (fun c => hashable (endpoint c) = true) old).
  { eapply Forall_impl; [exact Hold'|]. intros c. simpl. by destruct (endpoint c). }
  destruct (index_connections_ok old ∅ Hold) as (m & Hindex & Hsound & Hcomplete).
  assert (Hsound' : ∀ e c, m !! e = Some c → c ∈ old ∧ endpoint c = e).
  { intros e c Hm. by destruct (Hsound e c Hm) as [?|?]. }
  destruct (_reinitialize_loop_run m eps [] st Heps)
    as (st2 & added & Hrun & Hself & Hpool & Hadded & Hclosed & Hnext).
  unfold _reinitialize_endpoints, bind, getattr, lift, setattr.
  fold old eps. rewrite Hindex, Hrun. cbn [pool_close app fst snd].
  eexists _, (connections (_pool (self st2))).
  split; [reflexivity|]. cbn [self closed with_self set_pool step connections
                               ConnectionPool_new _pool _endpoints tick].
  assert (Hnew : ∀ c, c ∈ shuffle env (S (tick st2)) added ↔ c ∈ added).
  { intros c. by rewrite (Hshuffle _ added). }
  split_and!.
  - by rewrite Hclosed.
  - rewrite Hself. done.
  - intros e He Hex.
    destruct (Hcomplete e (or_intror Hex)) as [c Hm].
    destruct (Hsound' e c Hm) as [Hc Hce].
    exists c. split_and!; [done|done| |].
    + apply Hnew.
      apply list_elem_of_lookup in He as [i Hi].
      destruct (Forall2_lookup_l _ _ _ _ _ Hadded Hi) as (c' & Hc' & [H|(H & _)]);
        [|congruence].
      rewrite Hm in H. injection H as <-. by eapply list_elem_of_lookup_2.
    + rewrite Hpool. intros [_ Hno]. by apply (Hno e).
  - intros c [i Hi]%Hnew%list_elem_of_lookup Hnotold.
    destruct (Forall2_lookup_r _ _ _ _ _ Hadded Hi) as (e & He & [H|(Hnone & Hce & Hid)]).
    { by destruct (Hsound' e c H). }
    split_and!; [|done|].
    + rewrite Hce. by eapply list_elem_of_lookup_2.
    + intros c' Hc' Heq.
      destruct (Hcomplete e) as [x Hx]; [|congruence].
      right. exists c'. split; [done|congruence].
  - intros c Hc Hgone. rewrite Hpool. split; [done|].
    intros e He Hm. destruct (Hsound' e c Hm) as [_ <-]. done.
  - intros e [i Hi]%list_elem_of_lookup.
    destruct (Forall2_lookup_l _ _ _ _ _ Hadded Hi) as (c & Hc & Hcase).
    exists c. split; [apply Hnew; by eapply list_elem_of_lookup_2|].
    destruct Hcase as [H|(_ & H & _)]; [by destruct (Hsound' e c H)|done].
  - rewrite (Hshuffle _ added). symmetry. by eapply Forall2_length.
Qed.

End Reinitialize.

(** The witness of C7: a second endpoint joins the one the transport has; the
    connection to the first is kept. *)
Lemma reinitialize_reuses_connections_witness :
  ∃ st', _reinitialize_endpoints (world refused 0) (localhost_transport_grown (world refused 0))
         = (st', Ok tt)
         ∧ localhost_connection ∈ connections (_pool (self st')).
Proof.
  destruct (reinitialize_reuses_connections (world refused 0)
              (localhost_transport_grown (world refused 0)))
    as (st' & released & Hrun & _ & _ & Hreuse & _).
  - repeat constructor.
  - repeat constructor.
  - done.
  - exists st'. split; [done|].
    destruct (Hreuse (IsEndpoint (mkEndpoint "localhost" 9200))) as (c & Hc & _ & Hnew & _).
    + by left.
    + exists localhost_connection. split; [by left|done].
    + change (c ∈ [localhost_connection]) in Hc.
      apply elem_of_cons in Hc as [->|Hc]; [done|by apply elem_of_nil in Hc].
Defined.

(** ** Behaviour of a transport built by the constructor *)

Section Constructor.

Context (env : Env).

(** [_convert_endpoints] converts entry by entry, in order, and stops at the
    first entry that has no canonical form. *)
Lemma _convert_endpoints_loop_canonical eps : ∀ ret,
  _convert_endpoints_loop eps ret = (l ← mapM canonical eps; Ok (ret ++ l)).
Proof.
  induction eps as [|e eps IH]; intros ret; simpl.
  - by rewrite app_nil_r.
  - destruct e as [ep|[h|] p|repr|repr]; simpl; try done.
    + rewrite IH. destruct (mapM canonical eps); simpl; [|done].
      by rewrite <- app_assoc.
    + rewrite IH. destruct (mapM canonical eps); simpl; [|done].
      by rewrite <- app_assoc.
Qed.

Lemma _convert_endpoints_canonical eps :
  _convert_endpoints eps = mapM canonical eps.
Proof.
  unfold _convert_endpoints. rewrite _convert_endpoints_loop_canonical.
  by destruct (mapM canonical eps).
Qed.

(** A list that does not convert is rejected by the constructor, with the
    error of the conversion and before anything is built. *)
Lemma constructor_rejects eps interval sniff_timeout max_retries e :
  _convert_endpoints eps = Raise e →
  Transport_new env eps interval sniff_timeout max_retries = (fresh_state, Raise e).
Proof.
  intros H. unfold Transport_new, __init__, bind, lift. by rewrite H.
Qed.

(** A list that converts gives a transport whose [endpoints] are the
    converted list; its attributes are as [__init__] assigns them. *)
Lemma constructor_endpoints eps interval sniff_timeout max_retries l :
  _convert_endpoints eps = Ok l →
  ∃ st', Transport_new env eps interval sniff_timeout max_retries = (st', Ok tt)
         ∧ endpoints (self st') = IsEndpoint <$> l
         ∧ _seed_connections (self st') = connections (_pool (self st'))
         ∧ _sniffer_timeout (self st') = sniff_timeout
         ∧ _sniff_timeout (self st') = sniff_timeout
         ∧ _max_retries (self st') = max_retries
         ∧ _sniff_on_connection_fail (self st') = None.
Proof.
  intros H. unfold Transport_new, __init__.
  unfold bind at 1. unfold lift. rewrite H.
  unfold bind at 1 2. cbn [setattr].
  set (st0 := with_self _ (with_self _ fresh_state)).
  assert (Hh : Forall (fun e => hashable e = true) (IsEndpoint <$> l)).
  { apply Forall_fmap, Forall_true. done. }
  destruct (_reinitialize_loop_run ∅ (IsEndpoint <$> l) [] st0 Hh)
    as (st2 & added & Hrun & Hself & _).
  unfold bind at 1. unfold _reinitialize_endpoints, bind at 1 2 3, getattr, lift.
  cbn [index_connections st0 with_self self fresh_state set_pool connections
       ConnectionPool_new _pool _endpoints set_endpoints_attr blank].
  unfold bind at 1. change (mkState _ _ _ _ _) with st0.
  rewrite Hrun. unfold bind, setattr, monotonic, pool_close, getattr. simpl.
  eexists. split; [reflexivity|]. simpl. rewrite Hself. done.
Qed.

End Constructor.

(** C4 at an input where it fails: a list holding a dict, assigned through
    the [endpoints] setter.  [_convert_endpoints] would turn it into an
    endpoint with port 9200, but the setter stores the list as it is, the
    rebuild of the pool then fails on the unhashable dict with a
    [TypeError], and [endpoints] hands back the raw list. *)
Theorem setter_stores_raw_endpoints :
  let env := world refused 0 in
  let st := localhost_transport env in
  _convert_endpoints raw_endpoints = Ok [mkEndpoint "10.0.0.1" 9200]
  ∧ (endpoints_setter env raw_endpoints st).2 = Raise TypeError
  ∧ endpoints (self (endpoints_setter env raw_endpoints st).1) = raw_endpoints
  ∧ raw_endpoints ≠ [IsEndpoint (mkEndpoint "10.0.0.1" 9200)].
Proof. by vm_compute. Qed.

(** A list in the place of an endpoint gets through the setter as the dict
    does, and the rebuild of the pool fails on it in the same way. *)
Lemma setter_stores_list_entry :
  let env := world refused 0 in
  let st := localhost_transport env in
  (endpoints_setter env list_entry st).2 = Raise TypeError
  ∧ endpoints (self (endpoints_setter env list_entry st).1) = list_entry
  ∧ _pool (self (endpoints_setter env list_entry st).1) = _pool (self st).
Proof. by vm_compute. Qed.

(** C3 at an input where it fails: [__init__] stores [sniff_timeout] in
    [_sniffer_timeout], whatever [sniffer_timeout] is; so a transport built
    without a sniff interval has one of 0.1 s, and [get_connection], called
    a second after construction, starts a sniff (which fails here, the node
    refusing connections). *)
Theorem unset_interval_still_sniffs :
  let env := world refused 1 in
  (∀ interval,
     _sniffer_timeout
       (self (Transport_new env [IsDict (Some "localhost") None] interval
                default_sniff_timeout default_max_retries).1)
     = default_sniff_timeout)
  ∧ let st := localhost_transport env in
    default_sniffer_timeout = None
    ∧ log (get_connection env st).1 !! length (log st) = Some EvSniff
    ∧ (get_connection env st).2
      = Raise (TransportError "N/A" "Unable to sniff endpoints.").
Proof. by vm_compute. Qed.

(** C2 at an input where it fails: a transport built by the constructor with
    [max_retries] 3, whose node refuses connections.  The first attempt
    fails with a [ConnectionError]; [mark_dead] has the pool mark the
    connection and then reads [_sniff_on_connection_fail], which [__init__]
    never assigns; the request ends there, after one attempt, with an
    [AttributeError]. *)
Theorem first_failure_ends_request :
  let env := world refused 0 in
  let st := localhost_transport env in
  let run := perform_request env "GET" "/" None None None st in
  _max_retries (self st) = 3
  ∧ _sniff_on_connection_fail (self st) = None
  ∧ run.2 = Raise (AttributeError "_sniff_on_connection_fail")
  ∧ log run.1 = log st ++ [EvSelect; EvRequest localhost_connection get_root;
                           EvMarkDead localhost_connection].
Proof. by vm_compute. Qed.

(** ** Requests and retries *)

Section Retries.

Context (env : Env) (r : request).

(** Every choice of the pool succeeds, and every request fails with a
    connection error. *)
Hypothesis select_ok : ∀ k p, ∃ c, select env k p = Ok c.
Hypothesis transmit_fails : ∀ k c, ∃ d, transmit env k c r = Raise (ConnectionError d).

Lemma count_requests_app evs evs' :
  count_requests (evs ++ evs') = (count_requests evs + count_requests evs')%nat.
Proof.
  induction evs as [|ev evs IH]; [done|].
  destruct ev; simpl; rewrite IH; lia.
Qed.

Lemma get_connection_no_interval st :
  _sniffer_timeout (self st) = None →
  get_connection env st = (step [EvSelect] st, select env (tick st) (_pool (self st))).
Proof.
  intros H. unfold get_connection, bind, getattr. simpl. by rewrite H.
Qed.

Lemma mark_dead_flag_off c st :
  _sniff_on_connection_fail (self st) = Some false →
  mark_dead env c st = ((pool_mark_dead c st).1, Ok tt).
Proof.
  intros H. unfold mark_dead, bind, getattr. simpl. by rewrite H.
Qed.

(** One turn of the loop of [perform_request] in which the request fails. *)
Lemma attempts_cons_fail attempt rest st c d :
  no_sniffing (self st) →
  select env (tick st) (_pool (self st)) = Ok c →
  transmit env (S (tick st)) c r = Raise (ConnectionError d) →
  let st3 := (pool_mark_dead c (step [EvRequest c r] (step [EvSelect] st))).1 in
  attempts env r (attempt :: rest) st =
    if bool_decide (attempt = _max_retries (self st))
    then (st3, Raise (ConnectionError d))
    else attempts env r rest st3.
Proof.
  intros [Hinterval Hflag] Hc Hd st3. cbn [attempts].
  unfold bind at 1. rewrite get_connection_no_interval, Hc by done.
  unfold bind at 1. unfold try_except, bind at 1, Connection_perform_request.
  cbn [tick step]. rewrite Hd. unfold ret at 1.
  unfold bind at 1. rewrite mark_dead_flag_off by done.
  unfold bind, getattr. subst st3. simpl. by case_bool_decide.
Qed.

(** The loop of [perform_request] from attempt [i] on, [S k] attempts being
    left, on a transport that does not sniff: all of them are made and the
    error of the last one leaves the method. *)
Lemma attempts_all_fail (k : nat) : ∀ (i : Z) st,
  i + Z.of_nat k = _max_retries (self st) →
  no_sniffing (self st) →
  ∃ st' c d,
    attempts env r (seqZ i (Z.of_nat (S k))) st = (st', Raise (ConnectionError d))
    ∧ tick st' = (tick st + 3 * S k)%nat
    ∧ count_requests (log st') = (count_requests (log st) + S k)%nat
    ∧ transmit env (tick st' - 2) c r = Raise (ConnectionError d)
    ∧ ∃ before, log st' = before ++ [EvSelect; EvRequest c r; EvMarkDead c].
Proof.
  induction k as [|k IH]; intros i st Hi Hns.
  - rewrite seqZ_cons by lia.
    destruct (select_ok (tick st) (_pool (self st))) as [c Hc].
    destruct (transmit_fails (S (tick st)) c) as [d Hd].
    rewrite (attempts_cons_fail _ _ _ c d) by done.
    rewrite bool_decide_eq_true_2 by lia.
    eexists _, c, d. split; [reflexivity|]. simpl.
    split_and!; [lia| |by replace (S (S (S (tick st))) - 2)%nat with (S (tick st)) by lia|].
    + rewrite <- !app_assoc, count_requests_app. simpl. lia.
    + exists (log st). by rewrite <- !app_assoc.
  - rewrite seqZ_cons by lia.
    destruct (select_ok (tick st) (_pool (self st))) as [c Hc].
    destruct (transmit_fails (S (tick st)) c) as [d Hd].
    rewrite (attempts_cons_fail _ _ _ c d) by done.
    rewrite bool_decide_eq_false_2 by lia.
    replace (Z.pred (Z.of_nat (S (S k)))) with (Z.of_nat (S k)) by lia.
    match goal with
    | |- context [attempts env r _ ?s] =>
        destruct (IH (Z.succ i) s) as (st' & c' & d' & Hrun & Htick & Hcount & Hlast & Hlog)
    end.
    { simpl. lia. }
    { done. }
    exists st', c', d'. rewrite Hrun. split; [done|]. simpl in *.
    split_and!; [lia| |done|done].
    rewrite Hcount, <- !app_assoc, count_requests_app. simpl. lia.
Qed.

(** X10: with [max_retries = N] on a transport that does not sniff (no
    interval, [_sniff_on_connection_fail] present and false), when the pool
    always has a connection and every request fails with a connection error,
    [perform_request] makes exactly [N + 1] attempts and raises the
    [ConnectionError] of the last one. *)
Lemma perform_request_exhausts_retries method url params body request_timeout st :
  r = mkRequest method url params body request_timeout →
  0 ≤ _max_retries (self st) →
  no_sniffing (self st) →
  ∃ st' c d,
    perform_request env method url params body request_timeout st
    = (st', Raise (ConnectionError d))
    ∧ count_requests (log st')
      = (count_requests (log st) + Z.to_nat (_max_retries (self st) + 1))%nat
    ∧ transmit env (tick st' - 2) c r = Raise (ConnectionError d)
    ∧ ∃ before, log st' = before ++ [EvSelect; EvRequest c r; EvMarkDead c].
Proof.
  intros Hr Hn Hns.
  destruct (attempts_all_fail (Z.to_nat (_max_retries (self st))) 0 st)
    as (st' & c & d & Hrun & _ & Hcount & Hlast & Hlog); [lia|done|].
  exists st', c, d. unfold perform_request, bind, getattr. simpl. rewrite <- Hr.
  replace (_max_retries (self st) + 1)
    with (Z.of_nat (S (Z.to_nat (_max_retries (self st))))) by lia.
  rewrite Hrun. split_and!; [done| |done|done].
  rewrite Hcount. f_equal. lia.
Qed.

End Retries.

(** ** More on endpoint lists *)

Section EndpointLists.

Lemma mapM_canonical_Ok eps l :
  mapM canonical eps = Ok l ↔ Forall2 (fun e ep => canonical e = Ok ep) eps l.
Proof.
  revert l. induction eps as [|e eps IH]; intros l; simpl.
  - split; [intros [= <-]; constructor|by intros ->%Forall2_nil_inv_l].
  - split.
    + destruct (canonical e) as [ep|] eqn:He; simpl; [|done].
      destruct (mapM canonical eps) as [l'|] eqn:Hl; simpl; [|done].
      intros [= <-]. constructor; [done|by apply IH].
    + intros (ep & l' & He & Hl & ->)%Forall2_cons_inv_l.
      rewrite He. simpl. apply IH in Hl. rewrite Hl. done.
Qed.

Lemma mapM_canonical_Raise eps err :
  mapM canonical eps = Raise err
  ↔ ∃ i e, eps !! i = Some e ∧ canonical e = Raise err
           ∧ ∀ j e', (j < i)%nat → eps !! j = Some e' → ∃ ep, canonical e' = Ok ep.
Proof.
  induction eps as [|e eps IH]; simpl.
  - split; [done|]. by intros (i & e & H & _).
  - assert (Hshift : ∀ i,
              (∀ j e', (j < S i)%nat → (e :: eps) !! j = Some e' →
                       ∃ ep, canonical e' = Ok ep) →
              ∀ j e', (j < i)%nat → eps !! j = Some e' → ∃ ep, canonical e' = Ok ep).
    { intros i H j e' Hj He'. apply (H (S j)); [lia|done]. }
    destruct (canonical e) as [ep|err'] eqn:He; simpl.
    + destruct (mapM canonical eps) as [l'|err'] eqn:Hl; simpl.
      * split; [done|]. intros ([|i] & e0 & Hi & He0 & Hbefore); simpl in Hi.
        { congruence. }
        assert (Ok l' = Raise err) as [=].
        apply IH. exists i, e0. split_and!; [done..|]. by apply (Hshift i).
      * split.
        -- intros [= ->]. destruct (proj1 IH eq_refl) as (i & e0 & Hi & He0 & Hbefore).
           exists (S i), e0. split_and!; [done..|].
           intros [|j] e' Hj Hj'; simpl in Hj'; [simplify_eq; eauto|].
           apply (Hbefore j); [lia|done].
        -- intros ([|i] & e0 & Hi & He0 & Hbefore); simpl in Hi; [congruence|].
           apply IH. exists i, e0. split_and!; [done..|]. by apply (Hshift i).
    + split.
      * intros [= ->]. exists 0%nat, e. split_and!; [done..|]. intros j ?. lia.
      * intros ([|i] & e0 & Hi & He0 & Hbefore); simpl in Hi.
        -- simplify_eq. congruence.
        -- destruct (Hbefore 0%nat e) as [ep Hep]; [lia|done|congruence].
Qed.

(** X1: [_convert_endpoints] works entry by entry and keeps the order: it
    succeeds with [l] exactly when [l] lists the canonical forms of the
    entries (an endpoint as it is, a dict with its port or 9200), and it
    raises exactly the error of the first entry that has no canonical form:
    [RuntimeError] for an object that is neither, [KeyError] for a dict
    without ['host']. *)
Theorem convert_endpoints_entrywise eps :
  (∀ l, _convert_endpoints eps = Ok l
        ↔ Forall2 (fun e ep => canonical e = Ok ep) eps l)
  ∧ (∀ err, _convert_endpoints eps = Raise err
            ↔ ∃ i e, eps !! i = Some e ∧ canonical e = Raise err
                     ∧ ∀ j e', (j < i)%nat → eps !! j = Some e' →
                               ∃ ep, canonical e' = Ok ep).
Proof.
  rewrite _convert_endpoints_canonical. split.
  - intros l. apply mapM_canonical_Ok.
  - intros err. apply mapM_canonical_Raise.
Qed.

(** X2: a list of endpoints goes through [_convert_endpoints] unchanged; so
    what the function returns converts to itself. *)
Theorem convert_endpoints_idempotent (l : list Endpoint) :
  _convert_endpoints (IsEndpoint <$> l) = Ok l
  ∧ ∀ eps, _convert_endpoints eps = Ok l →
           _convert_endpoints (IsEndpoint <$> l) = _convert_endpoints eps.
Proof.
  assert (H : _convert_endpoints (IsEndpoint <$> l) = Ok l).
  { rewrite _convert_endpoints_canonical. apply mapM_canonical_Ok.
    apply Forall2_fmap_l, Forall2_same_length_lookup. split; [done|].
    intros i e e' H1 H2. by simplify_eq. }
  split; [done|]. intros eps ->. done.
Qed.

End EndpointLists.

(** ** Construction *)

Section Construction.

Context (env : Env).

(** The loop of [_reinitialize_endpoints] on an empty pool builds one
    connection per entry. *)
Lemma _reinitialize_loop_fresh eps : ∀ conns st,
  Forall (fun e => hashable e = true) eps →
  _reinitialize_loop ∅ eps conns st =
    (mkState (self st) (tick st) (next_id st + length eps) (closed st)
       (log st ++ (EvConnect <$> fresh_connections (next_id st) eps)),
     Ok (conns ++ fresh_connections (next_id st) eps)).
Proof.
  induction eps as [|e eps IH]; intros conns st Hh.
  - simpl. unfold ret. rewrite !app_nil_r, Nat.add_0_r. by destruct st.
  - apply Forall_cons in Hh as [He Hh]. cbn [_reinitialize_loop]. rewrite He.
    rewrite lookup_empty. unfold bind, Connection_new.
    rewrite (IH _ _ Hh). simpl. rewrite <- !app_assoc. simpl.
    do 2 f_equal. lia.
Qed.

(** X3: the constructor either rejects the endpoint list, with the error of
    [_convert_endpoints] and before anything is built, or builds one
    connection per entry of the converted list (duplicates included),
    shuffles them into the pool and keeps the same list as seed connections.
    [endpoints] then returns the converted list, [max_retries] the argument,
    [last_sniff] the time at the end of construction, and both
    [sniff_timeout] and the sniff interval are the argument [sniff_timeout],
    whatever [sniffer_timeout] was. *)
Theorem constructor_outcome eps interval timeout retries :
  (∀ err, _convert_endpoints eps = Raise err →
          Transport_new env eps interval timeout retries = (fresh_state, Raise err))
  ∧ (∀ l, _convert_endpoints eps = Ok l →
          let built := fresh_connections 0 (IsEndpoint <$> l) in
          ∃ st', Transport_new env eps interval timeout retries = (st', Ok tt)
                 ∧ endpoints (self st') = IsEndpoint <$> l
                 ∧ connections (_pool (self st')) = shuffle env 1 built
                 ∧ _seed_connections (self st') = shuffle env 1 built
                 ∧ length built = length l
                 ∧ closed st' = []
                 ∧ log st' = (EvConnect <$> built) ++ [EvClose []]
                 ∧ max_retries (self st') = retries
                 ∧ last_sniff (self st') = clock env 2
                 ∧ sniff_timeout (self st') = timeout
                 ∧ _sniffer_timeout (self st') = timeout
                 ∧ _sniff_timeout (self st') = timeout
                 ∧ _sniff_on_connection_fail (self st') = None).
Proof.
  split.
  - intros err H. unfold Transport_new, __init__, bind, lift. by rewrite H.
  - intros l H built. unfold Transport_new, __init__.
    unfold bind at 1. unfold lift. rewrite H.
    unfold bind at 1 2. cbn [setattr].
    set (st0 := with_self _ (with_self _ fresh_state)).
    assert (Hh : Forall (fun e => hashable e = true) (IsEndpoint <$> l)).
    { apply Forall_fmap, Forall_true. done. }
    unfold bind at 1. unfold _reinitialize_endpoints, bind at 1 2 3, getattr, lift.
    cbn [index_connections st0 with_self self fresh_state set_pool connections
         ConnectionPool_new _pool _endpoints set_endpoints_attr blank].
    unfold bind at 1. change (mkState _ _ _ _ _) with st0.
    rewrite (_reinitialize_loop_fresh _ [] st0 Hh).
    unfold bind, setattr, monotonic, pool_close, getattr. simpl.
    eexists. split; [reflexivity|]. simpl. fold built.
    split_and!; try done.
    + subst built. clear. generalize 0%nat. induction l as [|e l IH]; intros n; [done|].
      simpl. by rewrite IH.
    + by rewrite !app_nil_r.
Qed.

End Construction.

(** The witness of X3: a list of a dict and an endpoint. *)
Lemma constructor_outcome_witness :
  ∃ st', Transport_new (world refused 1)
           [IsDict (Some "10.0.0.1") None; IsEndpoint (mkEndpoint "10.0.0.2" 9201)]
           None (Some 0x1.999999999999ap-4%float) 3 = (st', Ok tt)
         ∧ endpoints (self st')
           = [IsEndpoint (mkEndpoint "10.0.0.1" 9200);
              IsEndpoint (mkEndpoint "10.0.0.2" 9201)].
Proof.
  destruct (proj2 (constructor_outcome (world refused 1)
                     [IsDict (Some "10.0.0.1") None; IsEndpoint (mkEndpoint "10.0.0.2" 9201)]
                     None (Some 0x1.999999999999ap-4%float) 3)
              [mkEndpoint "10.0.0.1" 9200; mkEndpoint "10.0.0.2" 9201] eq_refl)
    as (st' & Hrun & Hends & _).
  exists st'. by rewrite Hrun, Hends.
Defined.

(** ** The matcher finds every address *)

Section MatcherComplete.

Lemma greedy_complete {R} cls (s : list ascii) (k : list ascii -> option R) n :
  (n ≤ length s)%nat →
  Forall (fun c => cls c = true) (take n s) →
  is_Some (k (drop n s)) →
  is_Some (Re.greedy cls s k).
Proof.
  revert n. induction s as [|c s IH]; intros n Hn Hall Hk.
  - destruct n; simpl in *; eauto.
  - destruct n as [|n]; simpl in *.
    + destruct (cls c); [|eauto]. destruct (Re.greedy cls s k); eauto.
    + apply Forall_cons in Hall as [-> Hall].
      destruct (IH n) as [m ->]; [lia|done|done|]. eauto.
Qed.

(** The pattern matches at the slash of an address. *)
Lemma ADDRESS_RE_match_complete (h p closing : list ascii) :
  Forall (fun c => host_class c = true) h →
  p ≠ [] → Forall (fun c => digit_class c = true) p →
  closing = [] ∨ closing = ["]"%char] →
  is_Some (Re.rmatch ADDRESS_RE ("/"%char :: h ++ ":"%char :: p ++ closing) ∅
             (fun _ c => Some c)).
Proof.
  intros Hh Hne Hp Hc. unfold ADDRESS_RE. cbn [Re.rmatch].
  rewrite bool_decide_eq_true_2 by done.
  apply (greedy_complete _ _ _ (length h)).
  - rewrite length_app. lia.
  - by rewrite take_app_length.
  - rewrite drop_app_length. rewrite bool_decide_eq_true_2 by done.
    destruct p as [|c p]; [done|]. apply Forall_cons in Hp as [Hc0 Hp].
    simpl app. cbv iota beta. rewrite Hc0. cbv iota.
    apply (greedy_complete _ _ _ (length p)).
    + rewrite length_app. lia.
    + by rewrite take_app_length.
    + rewrite drop_app_length. destruct Hc as [-> | ->]; simpl; eauto.
Qed.

Lemma search_from_complete (pre rest : list ascii) :
  is_Some (Re.rmatch ADDRESS_RE rest ∅ (fun _ c => Some c)) →
  is_Some (Re.search_from ADDRESS_RE (pre ++ rest)).
Proof.
  intros Hrest. induction pre as [|c pre IH].
  - simpl app. destruct rest; cbn [Re.search_from]; destruct Hrest as [m ->]; eauto.
  - simpl app. cbn [Re.search_from].
    destruct (Re.rmatch ADDRESS_RE (c :: pre ++ rest) ∅ _); eauto.
Qed.

(** The place where a list splits into a stretch of [P], an element that is
    not [P], and the rest, is the same however the list is written. *)
Lemma split_first_unique {A} (P : A -> Prop) (l1 l2 r1 r2 : list A) a a' :
  Forall P l1 → Forall P l2 → ¬ P a → ¬ P a' →
  l1 ++ a :: r1 = l2 ++ a' :: r2 →
  l1 = l2 ∧ a = a' ∧ r1 = r2.
Proof.
  revert l2. induction l1 as [|x l1 IH]; intros [|y l2] H1 H2 Ha Ha' Heq;
    simpl in Heq; simplify_eq.
  - done.
  - by apply Forall_cons in H2 as [? _].
  - by apply Forall_cons in H1 as [? _].
  - apply Forall_cons in H1 as [_ H1]. apply Forall_cons in H2 as [_ H2].
    destruct (IH l2 H1 H2 Ha Ha') as (-> & -> & ->); done.
Qed.

Lemma split_last_unique {A} (P : A -> Prop) (l1 l2 r1 r2 : list A) a a' :
  Forall P r1 → Forall P r2 → ¬ P a → ¬ P a' →
  l1 ++ a :: r1 = l2 ++ a' :: r2 →
  l1 = l2 ∧ a = a' ∧ r1 = r2.
Proof.
  intros H1 H2 Ha Ha' Heq. apply (f_equal reverse) in Heq.
  rewrite !reverse_app, !reverse_cons, <- !app_assoc in Heq. simpl in Heq.
  apply (split_first_unique P) in Heq as (Hr & -> & Hl);
    [|by apply Forall_reverse..|done|done].
  apply (inj reverse) in Hr, Hl. done.
Qed.

Lemma last_digits_closing (x p closing : list ascii) :
  p ≠ [] → Forall (fun c => digit_class c = true) p →
  closing = [] ∨ closing = ["]"%char] ∨ closing = ["010"%char]
  ∨ closing = ["]"%char; "010"%char] →
  ∃ c, last (x ++ p ++ closing) = Some c
       ∧ ((closing = [] ∧ digit_class c = true)
          ∨ (closing = ["]"%char] ∧ c = "]"%char)
          ∨ ((closing = ["010"%char] ∨ closing = ["]"%char; "010"%char])
             ∧ c = "010"%char)).
Proof.
  intros Hne Hp Hc.
  destruct (last p) as [c|] eqn:Hl; [|by apply last_None in Hl].
  assert (digit_class c = true).
  { apply last_Some in Hl as [p' ->]. rewrite Forall_app, Forall_singleton in Hp. tauto. }
  destruct Hc as [-> | [-> | [-> | ->]]].
  - exists c. rewrite app_nil_r, last_app, Hl. eauto.
  - exists "]"%char. rewrite !last_app. simpl. eauto 6.
  - exists "010"%char. rewrite !last_app. simpl. eauto 6.
  - exists "010"%char. rewrite !last_app. simpl. eauto 6.
Qed.

(** A text is an address in one way only: host and port are determined. *)
Lemma address_unique (pre pre' h h' p p' closing closing' : list ascii) :
  Forall (fun c => host_class c = true) h → Forall (fun c => host_class c = true) h' →
  p ≠ [] → Forall (fun c => digit_class c = true) p →
  p' ≠ [] → Forall (fun c => digit_class c = true) p' →
  closing = [] ∨ closing = ["]"%char] →
  closing' = [] ∨ closing' = ["]"%char] ∨ closing' = ["010"%char]
  ∨ closing' = ["]"%char; "010"%char] →
  pre ++ "/"%char :: h ++ ":"%char :: p ++ closing
  = pre' ++ "/"%char :: h' ++ ":"%char :: p' ++ closing' →
  h = h' ∧ p = p'.
Proof.
  intros Hh Hh' Hne Hp Hne' Hp' Hc Hc' Heq.
  assert (Hre : ∀ (a b c d : list ascii),
            a ++ "/"%char :: b ++ ":"%char :: c ++ d
            = (a ++ "/"%char :: b ++ [":"%char]) ++ c ++ d).
  { intros. by rewrite <- !app_assoc, <- !app_comm_cons, <- !app_assoc. }
  assert (closing = closing') as <-.
  { rewrite !Hre in Heq.
    destruct (last_digits_closing (pre ++ "/"%char :: h ++ [":"%char]) p closing Hne Hp)
      as (c & Hl & Hcase); [tauto|].
    destruct (last_digits_closing (pre' ++ "/"%char :: h' ++ [":"%char]) p' closing' Hne' Hp')
      as (c' & Hl' & Hcase'); [done|].
    rewrite Heq, Hl' in Hl. injection Hl as ->.
    destruct Hcase as [[-> Hd]|[[-> Hd]|[[->| ->] Hd]]];
      destruct Hcase' as [[-> Hd']|[[-> Hd']|[[->| ->] Hd']]];
      try done; subst;
      first [done | by vm_compute in Hd | by vm_compute in Hd' | by destruct Hc]. }
  rewrite !Hre, !app_assoc in Heq. apply app_inv_tail in Heq.
  assert (Hre' : ∀ (a b c : list ascii),
            (a ++ "/"%char :: b ++ [":"%char]) ++ c = (a ++ "/"%char :: b) ++ ":"%char :: c).
  { intros. rewrite <- !app_assoc. simpl. by rewrite <- ?app_assoc. }
  rewrite !Hre' in Heq.
  apply (split_last_unique (fun c => digit_class c = true)) in Heq
    as (Heq & _ & ->); [|done|done|by vm_compute|by vm_compute].
  apply (split_last_unique (fun c => host_class c = true)) in Heq
    as (_ & _ & ->); [done|done|done|by vm_compute|by vm_compute].
Qed.

End MatcherComplete.

(** X4: every text that ends in [/host:port] or [/host:port]], with a host
    over the characters [.:0-9a-f] (so a dotted or an IPv6 address) and one or
    more digits as port, is matched by [ADDRESS_RE.search]; the groups are
    exactly that host and that port, whatever precedes the slash, and a node
    with this address and no attributes gives the endpoint of that host and
    the port as an integer. *)
Theorem address_matching_complete (pre h p closing : list ascii) :
  Forall (fun c => host_class c = true) h →
  p ≠ [] → Forall (fun c => digit_class c = true) p →
  closing = [] ∨ closing = ["]"%char] →
  let addr := string_of_list_ascii (pre ++ "/"%char :: h ++ ":"%char :: p ++ closing) in
  ∃ m z,
    Re.search ADDRESS_RE addr = Some m
    ∧ Re.groupdict m !! "host" = Some (Some (string_of_list_ascii h))
    ∧ Re.groupdict m !! "port" = Some (Some (string_of_list_ascii p))
    ∧ int_of_text (string_of_list_ascii p) = Ok z
    ∧ sniff_node (node_at addr) = Ok (Some (mkEndpoint (string_of_list_ascii h) z)).
Proof.
  intros Hh Hne Hp Hc addr.
  destruct (search_from_complete pre _ (ADDRESS_RE_match_complete h p closing Hh Hne Hp Hc))
    as [caps Hcaps].
  assert (Hs : Re.search ADDRESS_RE addr = Some {| Re.re := ADDRESS_RE; Re.groups := caps |}).
  { unfold Re.search, addr. by rewrite list_ascii_of_string_of_list_ascii, Hcaps. }
  destruct (search_inv _ _ Hs)
    as (pre' & h' & p' & closing' & Heq & Hh' & Hne' & Hp' & Hc' & Hhost & Hport).
  unfold addr in Heq. rewrite list_ascii_of_string_of_list_ascii in Heq.
  destruct (address_unique pre pre' h h' p p' closing closing'
              Hh Hh' Hne Hp Hne' Hp' Hc Hc' Heq) as [<- <-].
  destruct (int_of_digits p Hne Hp) as [z Hz].
  eexists _, z. split_and!; [done..|].
  destruct (sniff_node_matched (node_at addr) addr _ eq_refl Hs)
    as (h0 & digits & z0 & Hh0 & Hd0 & Hz0 & ->).
  rewrite Hhost in Hh0. rewrite Hport in Hd0. simplify_eq.
  rewrite Hz in Hz0. by injection Hz0 as <-.
Qed.

(** The witness of X4: an IPv6 loopback address in brackets. *)
Lemma address_matching_complete_witness :
  sniff_node (node_at "inet[/::1:9200]") = Ok (Some (mkEndpoint "::1" 9200)).
Proof.
  destruct (address_matching_complete
              (list_ascii_of_string "inet[") (list_ascii_of_string "::1")
              (list_ascii_of_string "9200") ["]"%char])
    as (m & z & _ & _ & _ & Hz & Hnode).
  - repeat constructor.
  - done.
  - repeat constructor.
  - by right.
  - vm_compute in Hz. injection Hz as <-. exact Hnode.
Defined.

(** ** What the methods leave alone *)

Section Frames.

Context (env : Env) (P : event -> Prop).

Lemma behaves_ret {A} (a : A) : behaves P (ret a).
Proof. intros st. split; [done|]. exists []. simpl. by rewrite app_nil_r. Qed.

Lemma behaves_raise {A} e : behaves P (raise (A:=A) e).
Proof. intros st. split; [done|]. exists []. simpl. by rewrite app_nil_r. Qed.

Lemma behaves_lift {A} (r : result A) : behaves P (lift r).
Proof. intros st. split; [done|]. exists []. simpl. by rewrite app_nil_r. Qed.

Lemma behaves_getattr {A} (f : Transport -> A) : behaves P (getattr f).
Proof. intros st. split; [done|]. exists []. simpl. by rewrite app_nil_r. Qed.

Lemma behaves_setattr f : (∀ t, config (f t) = config t) → behaves P (setattr f).
Proof.
  intros Hf st. split; [apply Hf|]. exists []. simpl. by rewrite app_nil_r.
Qed.

Lemma behaves_emit ev : P ev → behaves P (emit ev).
Proof. intros Hev st. split; [done|]. exists [ev]. by split; [|constructor]. Qed.

Lemma behaves_bind {A B} (m : M A) (f : A -> M B) :
  behaves P m → (∀ a, behaves P (f a)) → behaves P (bind m f).
Proof.
  intros Hm Hf st. unfold bind. destruct (Hm st) as (Hc1 & t1 & H1 & HP1).
  destruct (m st) as [st1 [a|e]]; simpl in *.
  - destruct (Hf a st1) as (Hc2 & t2 & H2 & HP2). split; [congruence|].
    exists (t1 ++ t2). rewrite H2, H1, app_assoc. split; [done|by apply Forall_app].
  - split; [done|]. by exists t1.
Qed.

Lemma behaves_try_except {A} (m : M A) (h : exn -> M A) :
  behaves P m → (∀ e, behaves P (h e)) → behaves P (try_except m h).
Proof.
  intros Hm Hh st. unfold try_except. destruct (Hm st) as (Hc1 & t1 & H1 & HP1).
  destruct (m st) as [st1 [a|e]]; simpl in *.
  - split; [done|]. by exists t1.
  - destruct (Hh e st1) as (Hc2 & t2 & H2 & HP2). split; [congruence|].
    exists (t1 ++ t2). rewrite H2, H1, app_assoc. split; [done|by apply Forall_app].
Qed.

Lemma behaves_step {A} evs (f : State -> result A) :
  Forall P evs → behaves P (fun st => (step evs st, f st)).
Proof. intros Hevs st. split; [done|]. by exists evs. Qed.

Lemma behaves_monotonic : behaves P (monotonic env).
Proof. by apply (behaves_step []). Qed.

Lemma behaves_Connection_perform_request c r :
  P (EvRequest c r) → behaves P (Connection_perform_request env c r).
Proof. intros H. apply (behaves_step [_]). by constructor. Qed.

Lemma behaves_Connection_new e :
  (∀ c, P (EvConnect c)) → behaves P (Connection_new e).
Proof. intros H st. split; [done|]. eexists [_]. split; [done|]. by constructor. Qed.

Lemma behaves_pool_get_connection : P EvSelect → behaves P (pool_get_connection env).
Proof. intros H. apply (behaves_step [_]). by constructor. Qed.

Lemma behaves_pool_mark_dead c : P (EvMarkDead c) → behaves P (pool_mark_dead c).
Proof. intros H st. split; [done|]. exists [EvMarkDead c]. split; [done|]. by constructor. Qed.

Lemma behaves_pool_mark_live c : P (EvMarkLive c) → behaves P (pool_mark_live c).
Proof. intros H st. split; [done|]. exists [EvMarkLive c]. split; [done|]. by constructor. Qed.

Lemma behaves_pool_detach c : P (EvDetach c) → behaves P (pool_detach c).
Proof. intros H st. split; [done|]. exists [EvDetach c]. split; [done|]. by constructor. Qed.

Lemma behaves_pool_close : (∀ cs, P (EvClose cs)) → behaves P pool_close.
Proof. intros H st. split; [done|]. eexists [_]. split; [done|]. by constructor. Qed.

End Frames.

Section MethodFrames.

Context (env : Env) (P : event -> Prop).

(** The events of a sniff and of a rebuild of the pool are in [P]. *)
Hypothesis P_sniff : P EvSniff.
Hypothesis P_request : ∀ c r, P (EvRequest c r).
Hypothesis P_detach : ∀ c, P (EvDetach c).
Hypothesis P_close : ∀ cs, P (EvClose cs).
Hypothesis P_connect : ∀ c, P (EvConnect c).

Lemma behaves_sniff_candidates t cs : behaves P (sniff_candidates env t cs).
Proof.
  induction cs as [|c cs IH]; cbn [sniff_candidates].
  - apply behaves_raise.
  - apply behaves_try_except.
    + apply behaves_bind; [by apply behaves_Connection_perform_request|].
      intros ?. apply behaves_lift.
    + intros e. destruct (swallowed e); [done|apply behaves_raise].
Qed.

Lemma behaves__reinitialize_loop m eps : ∀ conns, behaves P (_reinitialize_loop m eps conns).
Proof.
  induction eps as [|e eps IH]; intros conns; cbn [_reinitialize_loop].
  - apply behaves_ret.
  - destruct (hashable e); [|apply behaves_raise].
    destruct (m !! e).
    + apply behaves_bind; [by apply behaves_pool_detach|]. intros _. apply IH.
    + apply behaves_bind; [by apply behaves_Connection_new|]. intros ?. apply IH.
Qed.

Lemma behaves__reinitialize_endpoints : behaves P (_reinitialize_endpoints env).
Proof.
  unfold _reinitialize_endpoints.
  apply behaves_bind; [apply behaves_getattr|intros pool].
  apply behaves_bind; [apply behaves_lift|intros old].
  apply behaves_bind; [apply behaves_getattr|intros eps].
  apply behaves_bind; [apply behaves__reinitialize_loop|intros conns].
  apply behaves_bind; [by apply behaves_pool_close|intros _].
  apply behaves_bind; [by apply (behaves_step P [])|intros shuffled].
  by apply behaves_setattr.
Qed.

Lemma behaves_endpoints_setter eps : behaves P (endpoints_setter env eps).
Proof.
  unfold endpoints_setter.
  apply behaves_bind; [by apply behaves_setattr|intros _].
  apply behaves__reinitialize_endpoints.
Qed.

Lemma behaves_sniff_endpoints : behaves P (sniff_endpoints env).
Proof.
  unfold sniff_endpoints.
  apply behaves_bind; [by apply behaves_emit|intros _].
  apply behaves_bind; [apply behaves_getattr|intros previous].
  apply behaves_bind.
  - apply behaves_try_except.
    + apply behaves_bind; [apply behaves_monotonic|intros now].
      apply behaves_bind; [by apply behaves_setattr|intros _].
      apply behaves_bind; [apply behaves_getattr|intros pool].
      apply behaves_bind; [apply behaves_getattr|intros seeds].
      apply behaves_bind; [apply behaves_getattr|intros t].
      apply behaves_sniff_candidates.
    + intros e. apply behaves_bind; [by apply behaves_setattr|intros _].
      apply behaves_raise.
  - intros node_info. apply behaves_bind; [apply behaves_lift|intros found].
    apply behaves_endpoints_setter.
Qed.

Lemma behaves_get_connection : P EvSelect → behaves P (get_connection env).
Proof.
  intros Hs. unfold get_connection.
  apply behaves_bind; [apply behaves_getattr|intros t].
  apply behaves_bind; [|intros _; by apply behaves_pool_get_connection].
  destruct (truthy t); [|apply behaves_ret].
  apply behaves_bind; [apply behaves_monotonic|intros now].
  apply behaves_bind; [apply behaves_getattr|intros last].
  destruct (PrimFloat.leb _ _); [apply behaves_sniff_endpoints|apply behaves_ret].
Qed.

Lemma behaves_mark_dead c : P (EvMarkDead c) → behaves P (mark_dead env c).
Proof.
  intros Hd. unfold mark_dead.
  apply behaves_bind; [by apply behaves_pool_mark_dead|intros _].
  apply behaves_bind; [apply behaves_getattr|intros [[|]|]].
  - apply behaves_sniff_endpoints.
  - apply behaves_ret.
  - apply behaves_raise.
Qed.

Lemma behaves_attempts r range :
  P EvSelect → (∀ c, P (EvMarkDead c)) → (∀ c, P (EvMarkLive c)) →
  behaves P (attempts env r range).
Proof.
  intros Hs Hd Hl. induction range as [|attempt rest IH]; cbn [attempts].
  - apply behaves_ret.
  - apply behaves_bind; [by apply behaves_get_connection|intros c].
    apply behaves_bind.
    + apply behaves_try_except.
      * apply behaves_bind; [by apply behaves_Connection_perform_request|intros ?].
        apply behaves_ret.
      * intros []; first [apply behaves_ret | apply behaves_raise].
    + intros [response|e].
      * apply behaves_bind; [by apply behaves_pool_mark_live|intros _].
        apply behaves_bind; [apply behaves_lift|intros ?]. apply behaves_ret.
      * apply behaves_bind; [by apply behaves_mark_dead|intros _].
        apply behaves_bind; [apply behaves_getattr|intros n].
        destruct (bool_decide _); [apply behaves_raise|apply IH].
Qed.

End MethodFrames.

(** X5: a sniff, whether it succeeds or fails, and an assignment to
    [endpoints] only send requests, build, detach and close connections:
    they never ask the pool for a connection and never mark a connection
    dead or live. *)
Theorem sniff_touches_no_health_mark env st :
  (∃ tail, log (sniff_endpoints env st).1 = log st ++ tail ∧ Forall sniff_event tail)
  ∧ ∀ eps, ∃ tail, log (endpoints_setter env eps st).1 = log st ++ tail
                   ∧ Forall sniff_event tail.
Proof.
  split.
  - by apply (behaves_sniff_endpoints env sniff_event).
  - intros eps. by apply (behaves_endpoints_setter env sniff_event).
Qed.

(** X6: the seed connections, both timeouts, [max_retries] and
    [_sniff_on_connection_fail] are assigned by the constructor (or not at
    all) and by nothing else: no request, sniff, assignment to [endpoints] or
    [close] changes them, not even when it fails. *)
Theorem configuration_is_kept env st :
  config (self (sniff_endpoints env st).1) = config (self st)
  ∧ config (self (get_connection env st).1) = config (self st)
  ∧ (∀ c, config (self (mark_dead env c st).1) = config (self st))
  ∧ (∀ method url params body request_timeout,
       config (self (perform_request env method url params body request_timeout st).1)
       = config (self st))
  ∧ (∀ eps, config (self (endpoints_setter env eps st).1) = config (self st))
  ∧ config (self (close st).1) = config (self st).
Proof.
  split_and!.
  - by apply (behaves_sniff_endpoints env (fun _ => True)).
  - by apply (behaves_get_connection env (fun _ => True)).
  - intros c. by apply (behaves_mark_dead env (fun _ => True)).
  - intros method url params body request_timeout.
    unfold perform_request, bind at 1, getattr.
    by apply (behaves_attempts env (fun _ => True)).
  - intros eps. by apply (behaves_endpoints_setter env (fun _ => True)).
  - done.
Qed.

(** ** How often a request turns to the pool *)

Section Bounds.

Context (env : Env) (kind : event -> bool).

Lemma count_events_app evs evs' :
  count_events kind (evs ++ evs') = (count_events kind evs + count_events kind evs')%nat.
Proof. induction evs as [|ev evs IH]; simpl; [done|]. rewrite IH. lia. Qed.

Lemma count_events_none evs :
  Forall (fun ev => kind ev = false) evs → count_events kind evs = 0%nat.
Proof. induction 1 as [|ev evs Hev _ IH]; simpl; [done|]. by rewrite Hev, IH. Qed.

Lemma bounded_of_behaves {A} (m : M A) :
  behaves (fun ev => kind ev = false) m → bounded kind 0 m.
Proof.
  intros H st. destruct (H st) as (_ & tail & Hlog & Hall).
  exists tail. split; [done|]. by rewrite count_events_none.
Qed.

Lemma bounded_weaken {A} (m : M A) n n' :
  (n ≤ n')%nat → bounded kind n m → bounded kind n' m.
Proof.
  intros Hn H st. destruct (H st) as (tail & Hlog & Hc). exists tail. split; [done|lia].
Qed.

Lemma bounded_bind {A B} (m : M A) (f : A -> M B) n1 n2 :
  bounded kind n1 m → (∀ a, bounded kind n2 (f a)) → bounded kind (n1 + n2) (bind m f).
Proof.
  intros Hm Hf st. unfold bind. destruct (Hm st) as (t1 & H1 & Hc1).
  destruct (m st) as [st1 [a|e]]; simpl in *.
  - destruct (Hf a st1) as (t2 & H2 & Hc2). exists (t1 ++ t2).
    rewrite H2, H1, app_assoc, count_events_app. split; [done|lia].
  - exists t1. split; [done|lia].
Qed.

(** The kind counted is none of the events of a sniff, nor a request or a
    mark of liveness. *)
Hypothesis not_sniff : kind EvSniff = false.
Hypothesis not_request : ∀ c r, kind (EvRequest c r) = false.
Hypothesis not_detach : ∀ c, kind (EvDetach c) = false.
Hypothesis not_close : ∀ cs, kind (EvClose cs) = false.
Hypothesis not_connect : ∀ c, kind (EvConnect c) = false.
Hypothesis not_mark_live : ∀ c, kind (EvMarkLive c) = false.

Lemma bounded_sniff_endpoints : bounded kind 0 (sniff_endpoints env).
Proof. apply bounded_of_behaves. by apply behaves_sniff_endpoints. Qed.

Lemma bounded_get_connection :
  bounded kind (count_events kind [EvSelect]) (get_connection env).
Proof.
  unfold get_connection.
  apply (bounded_bind _ _ 0); [apply bounded_of_behaves, behaves_getattr|intros t].
  apply (bounded_bind _ _ 0).
  - destruct (truthy t); [|apply bounded_of_behaves, behaves_ret].
    apply (bounded_bind _ _ 0 0); [apply bounded_of_behaves, behaves_monotonic|intros now].
    apply (bounded_bind _ _ 0 0); [apply bounded_of_behaves, behaves_getattr|intros last].
    destruct (PrimFloat.leb _ _); [apply bounded_sniff_endpoints|].
    apply bounded_of_behaves, behaves_ret.
  - intros _ st. by exists [EvSelect].
Qed.

Lemma bounded_mark_dead c :
  bounded kind (count_events kind [EvMarkDead c]) (mark_dead env c).
Proof.
  unfold mark_dead.
  replace (count_events kind [EvMarkDead c])
    with (count_events kind [EvMarkDead c] + (0 + 0))%nat by lia.
  apply bounded_bind; [intros st; by exists [EvMarkDead c]|intros _].
  apply bounded_bind; [apply bounded_of_behaves, behaves_getattr|intros [[|]|]].
  - apply bounded_sniff_endpoints.
  - apply bounded_of_behaves, behaves_ret.
  - apply bounded_of_behaves, behaves_raise.
Qed.

(** The kind counted is asked of the pool once per turn of the loop, or
    marked once, not both. *)
Context (a d : nat).
Hypothesis select_count : (count_events kind [EvSelect] ≤ a)%nat.
Hypothesis dead_count : ∀ c, (count_events kind [EvMarkDead c] ≤ d)%nat.
Hypothesis once : (a + d ≤ 1)%nat.

Lemma bounded_attempts r range : bounded kind (length range) (attempts env r range).
Proof.
  induction range as [|attempt rest IH]; cbn [attempts].
  - apply bounded_of_behaves, behaves_ret.
  - apply (bounded_weaken _ (a + (0 + (d + (0 + length rest))))); [simpl; lia|].
    apply bounded_bind.
    { eapply bounded_weaken; [|apply bounded_get_connection]. done. }
    intros c. apply bounded_bind.
    + apply bounded_of_behaves, behaves_try_except.
      * apply behaves_bind; [by apply behaves_Connection_perform_request|intros ?].
        apply behaves_ret.
      * intros []; first [apply behaves_ret | apply behaves_raise].
    + intros [response|e].
      * apply (bounded_weaken _ 0); [lia|]. apply bounded_of_behaves.
        apply behaves_bind; [by apply behaves_pool_mark_live|intros _].
        apply behaves_bind; [apply behaves_lift|intros ?]. apply behaves_ret.
      * apply bounded_bind.
        { eapply bounded_weaken; [|apply bounded_mark_dead]. done. }
        intros _.
        apply bounded_bind; [apply bounded_of_behaves, behaves_getattr|intros n].
        destruct (bool_decide _); [|done].
        apply (bounded_weaken _ 0); [lia|]. apply bounded_of_behaves, behaves_raise.
Qed.

End Bounds.

Lemma bounded_attempts_mark_live env r range :
  bounded is_mark_live 1 (attempts env r range).
Proof.
  pose (Q := fun ev => is_mark_live ev = false).
  assert (Hsniff : bounded is_mark_live 0 (sniff_endpoints env)).
  { apply bounded_of_behaves. by apply behaves_sniff_endpoints. }
  induction range as [|attempt rest IH]; cbn [attempts].
  - apply (bounded_weaken _ _ 0); [lia|]. apply bounded_of_behaves, behaves_ret.
  - apply (bounded_bind _ _ _ 0 1).
    { apply bounded_of_behaves. by apply behaves_get_connection. }
    intros c. apply (bounded_bind _ _ _ 0 1).
    + apply bounded_of_behaves, behaves_try_except.
      * apply behaves_bind; [by apply behaves_Connection_perform_request|intros ?].
        apply behaves_ret.
      * intros []; first [apply behaves_ret | apply behaves_raise].
    + intros [response|e].
      * apply (bounded_bind _ _ _ 1 0); [intros st; by exists [EvMarkLive c]|intros _].
        apply bounded_of_behaves.
        apply behaves_bind; [apply behaves_lift|intros ?]. apply behaves_ret.
      * apply (bounded_bind _ _ _ 0 1).
        { apply bounded_of_behaves. by apply behaves_mark_dead. }
        intros _.
        apply (bounded_bind _ _ _ 0 1); [apply bounded_of_behaves, behaves_getattr|intros n].
        destruct (bool_decide _); [|done].
        apply (bounded_weaken _ _ 0); [lia|]. apply bounded_of_behaves, behaves_raise.
Qed.

(** X7: whatever the nodes, the pool and the clock do, one call of
    [perform_request] asks the pool for a connection at most
    [max_retries + 1] times, marks at most that many connections dead and at
    most one live; with a negative [max_retries] it does nothing at all and
    returns [None]. *)
Theorem perform_request_is_bounded env method url params body request_timeout st :
  let run := perform_request env method url params body request_timeout st in
  let n := Z.to_nat (_max_retries (self st) + 1) in
  (∃ tail, log run.1 = log st ++ tail
           ∧ (count_events is_select tail ≤ n)%nat
           ∧ (count_events is_mark_dead tail ≤ n)%nat
           ∧ (count_events is_mark_live tail ≤ 1)%nat)
  ∧ (_max_retries (self st) < 0 → run = (st, Ok None)).
Proof.
  intros run n. subst run. unfold perform_request, bind at 1, getattr. cbn [fst snd].
  set (r := mkRequest method url params body request_timeout).
  set (range := seqZ 0 (_max_retries (self st) + 1)).
  assert (Hlen : length range = n) by apply length_seqZ.
  split.
  - destruct (bounded_attempts env is_select) with (a := 1%nat) (d := 0%nat)
      (r := r) (range := range) (st := st) as (tail & Hlog & Hselect); try done.
    destruct (bounded_attempts env is_mark_dead) with (a := 0%nat) (d := 1%nat)
      (r := r) (range := range) (st := st) as (tail' & Hlog' & Hdead); try done.
    destruct (bounded_attempts_mark_live env r range st) as (tail'' & Hlog'' & Hlive).
    rewrite Hlog in Hlog', Hlog''. apply app_inv_head in Hlog', Hlog''. subst tail' tail''.
    exists tail. rewrite <- Hlen. done.
  - intros Hneg. unfold bind. simpl. rewrite seqZ_nil by lia. done.
Qed.

(** ** One attempt of a request *)

Section Attempt.

Context (env : Env) (r : request).

(** One turn of the loop of [perform_request], by what happens in it. *)
Lemma attempts_cons attempt rest st :
  attempts env r (attempt :: rest) st =
    match get_connection env st with
    | (st1, Raise e) => (st1, Raise e)
    | (st1, Ok c) =>
        let st2 := step [EvRequest c r] st1 in
        match transmit env (tick st1) c r with
        | Ok response => ((pool_mark_live c st2).1, response_outcome response)
        | Raise (ConnectionError d) =>
            match mark_dead env c st2 with
            | (st3, Raise e') => (st3, Raise e')
            | (st3, Ok _) =>
                if bool_decide (attempt = _max_retries (self st3))
                then (st3, Raise (ConnectionError d))
                else attempts env r rest st3
            end
        | Raise e => (st2, Raise e)
        end
    end.
Proof.
  cbn [attempts]. unfold bind at 1.
  destruct (get_connection env st) as [st1 [c|e]]; [|done].
  unfold bind at 1, try_except, bind at 1, Connection_perform_request.
  destruct (transmit env (tick st1) c r) as [response|e]; cbv zeta.
  - unfold ret at 1. unfold bind, pool_mark_live, lift, response_outcome, ret.
    cbn [fst snd mbind result_bind]. by destruct (decode response.2).
  - destruct e; try done. unfold ret at 1. unfold bind at 1.
    destruct (mark_dead env c _) as [st3 [[]|e']]; [|done].
    unfold bind, getattr, raise. cbn [fst snd]. by case_bool_decide.
Qed.

Lemma perform_request_unfold method url params body request_timeout st :
  r = mkRequest method url params body request_timeout →
  0 ≤ _max_retries (self st) →
  perform_request env method url params body request_timeout st
  = attempts env r (0 :: seqZ 1 (_max_retries (self st))) st.
Proof.
  intros -> Hn. unfold perform_request, bind, getattr. cbn [fst snd].
  rewrite seqZ_cons by lia. do 3 f_equal. lia.
Qed.

End Attempt.

(** X8: when the first connection answers, [perform_request] has the pool
    mark it live and returns the status with the decoded data: the decoded
    document for a JSON text, the data itself when there is none or it is
    the empty text; a text that is no JSON ends the call with a [ValueError],
    after the connection was marked live. *)
Theorem perform_request_first_success env method url params body request_timeout
    st st1 c status data :
  let r := mkRequest method url params body request_timeout in
  0 ≤ _max_retries (self st) →
  get_connection env st = (st1, Ok c) →
  transmit env (tick st1) c r = Ok (status, data) →
  let run := perform_request env method url params body request_timeout st in
  log run.1 = log st1 ++ [EvRequest c r; EvMarkLive c]
  ∧ run.2 = match data with
            | NoData => Ok (Some (status, VNone))
            | EmptyText => Ok (Some (status, VStr ""))
            | Malformed _ => Raise ValueError
            | Json v => Ok (Some (status, v))
            end.
Proof.
  intros r Hn Hget Hsend run. subst run.
  rewrite (perform_request_unfold env r) by done.
  rewrite attempts_cons, Hget. cbv zeta. fold r. rewrite Hsend. simpl.
  split; [by rewrite <- app_assoc|]. by destruct data.
Qed.

(** The witness of X8: a node that answers with a document. *)
Lemma perform_request_first_success_witness :
  let env := world (Ok (200, Json data_and_master)) 0 in
  (perform_request env "GET" "/" None None None (localhost_transport env)).2
  = Ok (Some (200, data_and_master)).
Proof.
  intros env.
  destruct (get_connection env (localhost_transport env)) as [st1 [c|e]] eqn:Hget;
    [|by vm_compute in Hget].
  apply (perform_request_first_success env "GET" "/" None None None
           (localhost_transport env) st1 c 200 (Json data_and_master));
    [by vm_compute|done|done].
Defined.

(** X9: only a [ConnectionError] of the request itself is retried.  An
    error while a connection is acquired (from a sniff that was due, or from
    the pool), any other error of the request (a timeout, say), and an error
    while the connection is marked dead (from the sniff that follows, or the
    missing attribute) each end [perform_request] at once, with that error;
    in the last case the [ConnectionError] of the attempt is lost. *)
Theorem only_connection_errors_are_retried env method url params body request_timeout st :
  let r := mkRequest method url params body request_timeout in
  let run := perform_request env method url params body request_timeout st in
  0 ≤ _max_retries (self st) →
  (∀ st1 e, get_connection env st = (st1, Raise e) → run = (st1, Raise e))
  ∧ (∀ st1 c e,
       get_connection env st = (st1, Ok c) →
       transmit env (tick st1) c r = Raise e →
       (∀ d, e ≠ ConnectionError d) →
       run = (step [EvRequest c r] st1, Raise e))
  ∧ (∀ st1 c d st3 e',
       get_connection env st = (st1, Ok c) →
       transmit env (tick st1) c r = Raise (ConnectionError d) →
       mark_dead env c (step [EvRequest c r] st1) = (st3, Raise e') →
       run = (st3, Raise e')).
Proof.
  intros r run Hn. subst run. rewrite (perform_request_unfold env r) by done.
  rewrite attempts_cons. split_and!.
  - by intros st1 e ->.
  - intros st1 c e -> Hsend Hne. cbv zeta. rewrite Hsend.
    destruct e; try done. by destruct (Hne detail).
  - intros st1 c d st3 e' -> Hsend Hmark. cbv zeta. by rewrite Hsend, Hmark.
Qed.

(** The witness of X9: a request that times out. *)
Lemma only_connection_errors_are_retried_witness :
  let env := world (Raise TimeoutError) 0 in
  (perform_request env "GET" "/" None None None (localhost_transport env)).2
  = Raise TimeoutError.
Proof.
  intros env.
  destruct (get_connection env (localhost_transport env)) as [st1 [c|e]] eqn:Hget;
    [|by vm_compute in Hget].
  destruct (only_connection_errors_are_retried env "GET" "/" None None None
              (localhost_transport env)) as (_ & Hother & _); [by vm_compute|].
  by rewrite (Hother st1 c TimeoutError Hget eq_refl).
Defined.

(** The witness of X10: nodes that never come up. *)
Lemma perform_request_exhausts_retries_witness :
  let env := steady_world (fun _ => refused) in
  ∃ st' d, perform_request env "GET" "/" None None None (quiet_transport env)
           = (st', Raise (ConnectionError d))
           ∧ count_requests (log st') = 4%nat.
Proof.
  intros env.
  destruct (perform_request_exhausts_retries env get_root) with
    (method := "GET") (url := "/") (params := @None value) (body := @None value)
    (request_timeout := @None float) (st := quiet_transport env)
    as (st' & c & d & Hrun & Hcount & _).
  - intros k p. eexists. reflexivity.
  - intros k c. by exists "refused".
  - done.
  - by vm_compute.
  - by vm_compute.
  - exists st', d. split; [done|]. rewrite Hcount. by vm_compute.
Defined.

(** ** Retrying until a node answers *)

Section RetryThenSucceed.

Context (env : Env) (r : request) (status : Z) (data : payload).

Hypothesis select_ok : ∀ k p, ∃ c, select env k p = Ok c.

(** The loop from attempt [i] on, when [k] more attempts fail and the one
    after them is answered. *)
Lemma attempts_until_success (k : nat) : ∀ (i n : Z) st,
  Z.of_nat k < n →
  i + Z.of_nat k ≤ _max_retries (self st) →
  no_sniffing (self st) →
  (∀ j c, (j < k)%nat →
          ∃ d, transmit env (tick st + 3 * j + 1) c r = Raise (ConnectionError d)) →
  (∀ c, transmit env (tick st + 3 * k + 1) c r = Ok (status, data)) →
  ∃ st' c,
    attempts env r (seqZ i n) st = (st', response_outcome (status, data))
    ∧ count_requests (log st') = (count_requests (log st) + S k)%nat
    ∧ count_events is_mark_dead (log st') = (count_events is_mark_dead (log st) + k)%nat
    ∧ ∃ before, log st' = before ++ [EvSelect; EvRequest c r; EvMarkLive c].
Proof.
  induction k as [|k IH]; intros i n st Hn Hi Hns Hfail Hup.
  - rewrite seqZ_cons by lia. rewrite attempts_cons.
    destruct Hns as [Hinterval Hflag].
    rewrite get_connection_no_interval by done.
    destruct (select_ok (tick st) (_pool (self st))) as [c ->]. cbv zeta.
    cbn [tick step]. replace (S (tick st)) with (tick st + 3 * 0 + 1)%nat by lia.
    rewrite Hup. eexists _, c. split; [done|]. simpl.
    rewrite <- !app_assoc, count_requests_app, count_events_app. simpl.
    split_and!; [lia|lia|]. by exists (log st).
  - rewrite seqZ_cons by lia.
    destruct (select_ok (tick st) (_pool (self st))) as [c Hc].
    destruct (Hfail 0%nat c) as [d Hd]; [lia|].
    replace (tick st + 3 * 0 + 1)%nat with (S (tick st)) in Hd by lia.
    rewrite (attempts_cons_fail env r _ _ _ c d) by done.
    rewrite bool_decide_eq_false_2 by lia.
    set (st3 := (pool_mark_dead c (step [EvRequest c r] (step [EvSelect] st))).1).
    assert (Htick : tick st3 = (tick st + 3)%nat) by (simpl; lia).
    destruct (IH (Z.succ i) (Z.pred n) st3) as (st' & c' & Hrun & Hreq & Hdead & Hlog).
    { lia. }
    { simpl. lia. }
    { done. }
    { intros j c0 Hj. rewrite Htick.
      replace (tick st + 3 + 3 * j + 1)%nat with (tick st + 3 * S j + 1)%nat by lia.
      apply Hfail. lia. }
    { intros c0. rewrite Htick.
      replace (tick st + 3 + 3 * k + 1)%nat with (tick st + 3 * S k + 1)%nat by lia.
      apply Hup. }
    exists st', c'. rewrite Hrun. split; [done|]. simpl in Hreq, Hdead.
    rewrite <- !app_assoc, count_requests_app in Hreq.
    rewrite <- !app_assoc, count_events_app in Hdead. simpl in Hreq, Hdead.
    split_and!; [lia|lia|done].
Qed.

(** X11: on a transport that does not sniff and whose pool always has a
    connection, when the first [k] requests fail with a connection error,
    [k] being at most [max_retries], and the next one is answered,
    [perform_request] returns that answer after exactly [k + 1] requests,
    having marked [k] connections dead and the last one live. *)
Theorem perform_request_retries_until_success
    method url params body request_timeout (k : nat) st :
  r = mkRequest method url params body request_timeout →
  Z.of_nat k ≤ _max_retries (self st) →
  no_sniffing (self st) →
  (∀ j c, (j < k)%nat →
          ∃ d, transmit env (tick st + 3 * j + 1) c r = Raise (ConnectionError d)) →
  (∀ c, transmit env (tick st + 3 * k + 1) c r = Ok (status, data)) →
  ∃ st' c,
    perform_request env method url params body request_timeout st
    = (st', response_outcome (status, data))
    ∧ count_requests (log st') = (count_requests (log st) + S k)%nat
    ∧ count_events is_mark_dead (log st') = (count_events is_mark_dead (log st) + k)%nat
    ∧ ∃ before, log st' = before ++ [EvSelect; EvRequest c r; EvMarkLive c].
Proof.
  intros Hr Hk Hns Hfail Hup.
  unfold perform_request, bind, getattr. cbn [fst snd]. rewrite <- Hr.
  apply attempts_until_success; try done; lia.
Qed.

End RetryThenSucceed.

(** The witness of X11: a node that refuses the first request and answers
    the second. *)
Lemma perform_request_retries_until_success_witness :
  let env := steady_world (up_from 5 (200, Json data_and_master)) in
  ∃ st', perform_request env "GET" "/" None None None (quiet_transport env)
         = (st', Ok (Some (200, data_and_master)))
         ∧ count_requests (log st') = 2%nat.
Proof.
  intros env.
  destruct (perform_request_retries_until_success env get_root 200 (Json data_and_master))
    with (method := "GET") (url := "/") (params := @None value) (body := @None value)
         (request_timeout := @None float) (k := 1%nat) (st := quiet_transport env)
    as (st' & c & Hrun & Hcount & _).
  - intros k p. eexists. reflexivity.
  - done.
  - by vm_compute.
  - by vm_compute.
  - intros j c Hj. exists "refused". by replace j with 0%nat by lia.
  - intros c. reflexivity.
  - exists st'. split; [done|]. rewrite Hcount. by vm_compute.
Defined.

(** ** Rebuilding the pool, in full *)

Section Rebuild.

Context (env : Env).

(** [_reinitialize_endpoints] on hashable endpoints: the index it builds, the
    connections its loop gathers, and the state it leaves. *)
Lemma _reinitialize_endpoints_run st :
  let old := connections (_pool (self st)) in
  let eps := _endpoints (self st) in
  Forall (fun e => hashable e = true) eps →
  Forall (fun c => hashable (endpoint c) = true) old →
  ∃ m st2 added st',
    (∀ e c, m !! e = Some c → c ∈ old ∧ endpoint c = e)
    ∧ (∀ c, c ∈ old → is_Some (m !! endpoint c))
    ∧ _reinitialize_loop m eps [] st = (st2, Ok added)
    ∧ (∀ d, d ∈ connections (_pool (self st2)) ↔ d ∈ old ∧ ∀ e, e ∈ eps → m !! e ≠ Some d)
    ∧ Forall2 (fun e c => m !! e = Some c
                          ∨ (m !! e = None ∧ endpoint c = e
                             ∧ (next_id st ≤ conn_id c)%nat)) eps added
    ∧ _reinitialize_endpoints env st = (st', Ok tt)
    ∧ self st' = set_pool (ConnectionPool_new (shuffle env (S (tick st2)) added)) (self st)
    ∧ closed st' = closed st ++ connections (_pool (self st2))
    ∧ next_id st' = next_id st2.
Proof.
  intros old eps Heps Hold.
  destruct (index_connections_ok old ∅ Hold) as (m & Hindex & Hsound & Hcomplete).
  destruct (_reinitialize_loop_run m eps [] st Heps)
    as (st2 & added & Hrun & Hself & Hpool & Hadded & Hclosed & Hnext).
  exists m, st2, added.
  unfold _reinitialize_endpoints, bind, getattr, lift, setattr.
  fold old eps. rewrite Hindex, Hrun. cbn [pool_close app fst snd].
  eexists. split_and!; [| |done|done|done|reflexivity| | |].
  - intros e c Hm. by destruct (Hsound e c Hm) as [?|?].
  - intros c Hc. apply Hcomplete. right. by exists c.
  - cbn [self with_self]. rewrite Hself. done.
  - cbn [closed with_self]. by rewrite Hclosed.
  - done.
Qed.

(** When every entry has a connection in the index, the loop builds none. *)
Lemma _reinitialize_loop_known m eps : ∀ conns st,
  (∀ e, e ∈ eps → hashable e = true ∧ is_Some (m !! e)) →
  next_id (_reinitialize_loop m eps conns st).1 = next_id st.
Proof.
  induction eps as [|e eps IH]; intros conns st Hknown; [done|].
  cbn [_reinitialize_loop].
  destruct (Hknown e) as [-> [c ->]]; [by left|].
  unfold bind, pool_detach. rewrite IH; [done|].
  intros e' He'. apply Hknown. by right.
Qed.

Lemma Forall2_endpoint_fmap (eps : list endpoint_spec) (added : list Connection) :
  Forall2 (fun e c => endpoint c = e) eps added → endpoint <$> added = eps.
Proof. induction 1 as [|e c eps added <- _ IH]; [done|]. by rewrite fmap_cons, IH. Qed.

Lemma viable_endpoints_nonempty node_info found :
  viable_endpoints node_info = Ok found → found ≠ [].
Proof.
  unfold viable_endpoints. destruct (subscript node_info "nodes") as [nodes|]; [|done].
  simpl. destruct (values nodes) as [ns|]; [|done]. simpl.
  destruct (sniff_nodes ns []) as [l|]; [|done]. simpl.
  case_bool_decide; [done|]. by intros [= <-].
Qed.

(** X13: a sniff that gets a response with viable endpoints succeeds and
    replaces the topology: [endpoints] is the discovered list, not merged
    with the old one; the new pool holds exactly one connection per
    discovered endpoint; [last_sniff] is the time the sniff began; the seed
    connections stay as they were. *)
Theorem sniff_replaces_topology st st1 node_info found :
  candidate_phase env st = (st1, Ok node_info) →
  viable_endpoints node_info = Ok found →
  Forall (fun c => hashable (endpoint c) = true) (connections (_pool (self st))) →
  (∀ k l, shuffle env k l ≡ₚ l) →
  ∃ st',
    sniff_endpoints env st = (st', Ok tt)
    ∧ endpoints (self st') = IsEndpoint <$> found
    ∧ found ≠ []
    ∧ endpoint <$> connections (_pool (self st')) ≡ₚ IsEndpoint <$> found
    ∧ last_sniff (self st') = clock env (tick st)
    ∧ _seed_connections (self st') = _seed_connections (self st).
Proof.
  intros Hphase Hviable Hold Hshuffle.
  pose proof (candidate_phase_self env st) as Hself1. rewrite Hphase in Hself1.
  simpl in Hself1.
  rewrite sniff_endpoints_unfold, Hphase, Hviable.
  unfold endpoints_setter, bind at 1, setattr.
  set (st1' := with_self (set_endpoints_attr (IsEndpoint <$> found)) st1).
  destruct (_reinitialize_endpoints_run st1')
    as (m & st2 & added & st' & Hsound & _ & _ & _ & Hadded & Hrun & Hself & _).
  { simpl. apply Forall_fmap, Forall_true. done. }
  { simpl. by rewrite Hself1. }
  exists st'. split; [done|]. rewrite Hself. simpl. rewrite Hself1. simpl.
  split_and!; [done|by eapply viable_endpoints_nonempty| |done|done].
  rewrite (Hshuffle _ added).
  rewrite (Forall2_endpoint_fmap (IsEndpoint <$> found) added); [done|].
  simpl in Hadded. eapply Forall2_impl; [exact Hadded|].
  intros e c [Hm|(_ & He & _)]; [by destruct (Hsound e c Hm)|done].
Qed.

(** X14: rebuilding the pool from an unchanged topology (the endpoint list
    names, once each, exactly the endpoints the pool has connections for,
    one connection each) builds no connection and releases none: the new
    pool holds the same connection objects. *)
Theorem reinitialize_unchanged_topology st :
  let old := connections (_pool (self st)) in
  let eps := _endpoints (self st) in
  Forall (fun e => hashable e = true) eps →
  NoDup (endpoint <$> old) →
  eps ≡ₚ endpoint <$> old →
  (∀ k l, shuffle env k l ≡ₚ l) →
  ∃ st',
    _reinitialize_endpoints env st = (st', Ok tt)
    ∧ connections (_pool (self st')) ≡ₚ old
    ∧ next_id st' = next_id st
    ∧ closed st' = closed st
    ∧ _endpoints (self st') = eps.
Proof.
  intros old eps Heps Hnodup Hperm Hshuffle.
  assert (Hold : Forall (fun c => hashable (endpoint c) = true) old).
  { apply Forall_forall. intros c Hc. rewrite Forall_forall in Heps. apply Heps.
    rewrite Hperm. by apply list_elem_of_fmap_2. }
  destruct (_reinitialize_endpoints_run st Heps Hold)
    as (m & st2 & added & st' & Hsound & Hcomplete & Hloop & Hpool & Hadded
        & Hrun & Hself & Hclosed & Hnext).
  fold old eps in Hloop, Hpool, Hadded.
  assert (Hexact : ∀ c, c ∈ old → m !! endpoint c = Some c).
  { intros c Hc. destruct (Hcomplete c Hc) as [c' Hc']. rewrite Hc'. f_equal.
    destruct (Hsound _ _ Hc') as [Hin Heq]. fold old in Hin.
    apply list_elem_of_lookup in Hc as [i Hi]. apply list_elem_of_lookup in Hin as [j Hj].
    assert (i = j) as ->; [|congruence].
    eapply NoDup_lookup; [exact Hnodup| |]; rewrite list_lookup_fmap.
    - by rewrite Hi.
    - rewrite Hj. simpl. by rewrite Heq. }
  assert (Hknown : ∀ e, e ∈ eps → ∃ c, c ∈ old ∧ endpoint c = e ∧ m !! e = Some c).
  { intros e He. rewrite Hperm in He. apply list_elem_of_fmap in He as (c & -> & Hc).
    exists c. split_and!; [done|done|by apply Hexact]. }
  assert (Hadded' : added = (fun e => default localhost_connection (m !! e)) <$> eps).
  { clear -Hadded Hknown. induction Hadded as [|e c eps added Hc _ IH]; [done|].
    simpl. rewrite IH by (intros e' He'; apply Hknown; by right).
    destruct (Hknown e) as (c' & _ & _ & Hm); [by left|].
    destruct Hc as [Hc|[Hc _]]; [|congruence]. by rewrite Hc. }
  exists st'. split; [done|]. rewrite Hself. simpl.
  split_and!; [| | |done].
  - rewrite (Hshuffle _ added), Hadded', Hperm.
    rewrite <- list_fmap_compose.
    rewrite (list_fmap_ext _ id old); [by rewrite list_fmap_id|].
    intros i c Hc. simpl. rewrite Hexact; [done|]. by eapply list_elem_of_lookup_2.
  - rewrite Hnext. replace st2 with (_reinitialize_loop m eps [] st).1 by (by rewrite Hloop).
    apply _reinitialize_loop_known. intros e He. split.
    + rewrite Forall_forall in Heps. by apply Heps.
    + destruct (Hknown e He) as (c & _ & _ & ->). eauto.
  - rewrite Hclosed.
    assert (connections (_pool (self st2)) = []) as ->; [|by rewrite app_nil_r].
    apply elem_of_nil_inv. intros d [Hd Hnone]%Hpool.
    apply (Hnone (endpoint d)); [|by apply Hexact].
    rewrite Hperm. by apply list_elem_of_fmap_2.
Qed.

End Rebuild.

(** The witness of X13: a cluster of a data node and a dedicated master. *)
Lemma sniff_replaces_topology_witness :
  let env := world (Ok (200, Json data_and_master)) 1 in
  ∃ st', sniff_endpoints env (localhost_transport env) = (st', Ok tt)
         ∧ endpoints (self st') = [IsEndpoint (mkEndpoint "10.0.0.1" 9200)].
Proof.
  intros env.
  destruct (candidate_phase env (localhost_transport env)) as [st1 res] eqn:Hphase.
  assert (Hres : res = (candidate_phase env (localhost_transport env)).2)
    by (by rewrite Hphase).
  vm_compute in Hres. subst res.
  destruct (sniff_replaces_topology env (localhost_transport env) st1 _
              [mkEndpoint "10.0.0.1" 9200] Hphase)
    as (st' & Hrun & Hends & _).
  - by vm_compute.
  - repeat constructor.
  - done.
  - by exists st'.
Defined.

(** The witness of X14: the transport as the constructor left it. *)
Lemma reinitialize_unchanged_topology_witness :
  let env := world refused 0 in
  ∃ st', _reinitialize_endpoints env (localhost_transport env) = (st', Ok tt)
         ∧ connections (_pool (self st')) ≡ₚ [localhost_connection].
Proof.
  intros env.
  destruct (reinitialize_unchanged_topology env (localhost_transport env))
    as (st' & Hrun & Hsame & _).
  - repeat constructor.
  - change (NoDup [IsEndpoint (mkEndpoint "localhost" 9200)]).
    apply NoDup_singleton.
  - done.
  - done.
  - by exists st'.
Defined.

(** ** The endpoints of a response *)

Section Documents.

Lemma sniff_nodes_run ns : ∀ rs acc,
  Forall2 (fun n r => sniff_node n = Ok r) ns rs →
  sniff_nodes ns acc = Ok (acc ++ omap id rs).
Proof.
  induction ns as [|n ns IH]; intros rs acc Hrs.
  - apply Forall2_nil_inv_l in Hrs as ->. simpl. by rewrite app_nil_r.
  - apply Forall2_cons_inv_l in Hrs as (r & rs' & Hr & Hrs & ->).
    cbn [sniff_nodes]. rewrite Hr. cbn [mbind result_bind].
    rewrite (IH rs') by done. destruct r as [e|]; simpl; [|done].
    by rewrite <- app_assoc.
Qed.

Lemma sniff_nodes_raise ns1 : ∀ rs n ns2 e acc,
  Forall2 (fun n r => sniff_node n = Ok r) ns1 rs →
  sniff_node n = Raise e →
  sniff_nodes (ns1 ++ n :: ns2) acc = Raise e.
Proof.
  induction ns1 as [|n1 ns1 IH]; intros rs n ns2 e acc Hrs Hn.
  - simpl. by rewrite Hn.
  - apply Forall2_cons_inv_l in Hrs as (r & rs' & Hr & Hrs & ->).
    simpl. rewrite Hr. cbn [mbind result_bind]. by eapply IH.
Qed.

(** X15: the endpoints of a response are those of its nodes in the order of
    the document, one per node that has an address and is not a dedicated
    master, two nodes with the same address giving the endpoint twice; the
    result is the error "no viable endpoints found" when no node gives one,
    and the error of the first node that cannot be read (an address or
    attributes of the wrong type) whatever the other nodes are. *)
Theorem viable_endpoints_in_order (items : list (string * value)) :
  let doc := VDict [("nodes", VDict items)] in
  (∀ rs, Forall2 (fun n r => sniff_node n = Ok r) (snd <$> items) rs →
         viable_endpoints doc =
           if bool_decide (omap id rs = [])
           then Raise (TransportError "N/A"
                         "Unable to sniff endpoints - no viable endpoints found.")
           else Ok (omap id rs))
  ∧ (∀ before n after rs e,
       snd <$> items = before ++ n :: after →
       Forall2 (fun n r => sniff_node n = Ok r) before rs →
       sniff_node n = Raise e →
       viable_endpoints doc = Raise e).
Proof.
  intros doc. split.
  - intros rs Hrs. unfold viable_endpoints, doc. simpl.
    rewrite (sniff_nodes_run _ rs []) by done. done.
  - intros before n after rs e Hsplit Hrs Hn. unfold viable_endpoints, doc. simpl.
    rewrite Hsplit. by rewrite (sniff_nodes_raise before rs n after e []).
Qed.

End Documents.

(** The witness of X15: the document of the two nodes. *)
Lemma viable_endpoints_in_order_witness :
  viable_endpoints data_and_master = Ok [mkEndpoint "10.0.0.1" 9200].
Proof.
  apply (proj1 (viable_endpoints_in_order [("A", node_A); ("B", node_B)])
           [Some (mkEndpoint "10.0.0.1" 9200); None]).
  repeat constructor.
Defined.
